(** * volume-logger: the LED processor change logger

    A shallow embedding of [volume-logger.py]: the JSON snapshots returned by
    the processors, the [VETO] patterns, the recursive comparison
    [dict_compare], the value lookup [get_value] and the [Processor] class
    with its vendor detection, sampling window and per-cycle comparison.

    Conventions of the embedding.
    - Text (hosts, keys, paths) is a [string] of 8-bit characters, the code
      points 0 to 255.  There [\d] and [int] accept the digits [0] to [9],
      and [str.isdigit] accepts the superscripts two, three and one (178,
      179, 185) as well.
    - A JSON number is its exact value, a rational: Python compares [int],
      finite [float] and [bool] by value ([1 == 1.0 == True]).  The decoder
      of [res.json()] also accepts [NaN], [Infinity] and [-Infinity]; it
      returns one object for every [NaN], which differs from itself under
      [==] and [!=] and is one element of a set.
    - A [dict] is an association list in insertion order; lookup takes the
      first binding of a key.
    - The iteration order of a Python set of strings depends on the hash
      seed of the run: it is a parameter, a [set_order].
    - A Python exception is a value of [exn]; code that can raise returns
      a [res]. *)

From Stdlib Require Import List String Ascii ZArith QArith Bool Lia.
From Stdlib Require Import Permutation.
From Stdlib Require Import DecimalString.
Import ListNotations.

Local Open Scope Z_scope.
Local Open Scope list_scope.

(** ** Exceptions and results *)

Inductive exn : Type :=
| TypeError
| AttributeError
| KeyError
| ValueError
| IndexError
| ConnectionError   (* requests.exceptions.ConnectionError and its subclasses *)
| HTTPError
| ReadTimeout.      (* requests.exceptions.ReadTimeout: not a ConnectionError *)

Inductive res (A : Type) : Type :=
| Ok (a : A)
| Raise (e : exn).

Arguments Ok {A} a.
Arguments Raise {A} e.

Definition rbind {A B : Type} (m : res A) (f : A -> res B) : res B :=
  match m with
  | Ok a => f a
  | Raise e => Raise e
  end.

Notation "x <- m ;; k" := (rbind m (fun x => k))
  (at level 61, m at next level, right associativity).

(** ** Snapshots: the values produced by [res.json()] *)

Inductive scalar : Type :=
| SNone
| SBool (b : bool)
| SNum (q : Q)
| SInf (negative : bool)
| SNaN
| SStr (s : string).

Unset Elimination Schemes.
Inductive json : Type :=
| JScalar (s : scalar)
| JList (l : list json)
| JDict (d : list (string * json)).
Set Elimination Schemes.

(** Induction on snapshots through the values of a dict. *)
Definition json_dict_ind (P : json -> Prop)
  (Hscalar : forall s, P (JScalar s))
  (Hlist : forall l, P (JList l))
  (Hdict : forall d, Forall (fun kv => P (snd kv)) d -> P (JDict d))
  : forall j, P j :=
  fix go (j : json) : P j :=
    match j with
    | JScalar s => Hscalar s
    | JList l => Hlist l
    | JDict d =>
        Hdict d
          ((fix values (d : list (string * json))
              : Forall (fun kv => P (snd kv)) d :=
              match d with
              | [] => Forall_nil _
              | kv :: rest =>
                  Forall_cons kv
                    (match kv as kv0 return P (snd kv0) with
                     | (_, v) => go v
                     end)
                    (values rest)
              end) d)
    end.

Definition JInt (z : Z) : json := JScalar (SNum (inject_Z z)).
Definition JStr (s : string) : json := JScalar (SStr s).

Definition Q_of_bool (b : bool) : Q := if b then 1%Q else 0%Q.

(** Python's [==] between two scalars.  [NaN] equals nothing, itself
    included. *)
Definition scalar_eq (x y : scalar) : bool :=
  match x, y with
  | SNone, SNone => true
  | SBool a, SBool b => Bool.eqb a b
  | SBool a, SNum q => Qeq_bool (Q_of_bool a) q
  | SNum q, SBool b => Qeq_bool q (Q_of_bool b)
  | SNum p, SNum q => Qeq_bool p q
  | SInf a, SInf b => Bool.eqb a b
  | SStr s, SStr t => String.eqb s t
  | _, _ => false
  end.

(** [x is y], where [==] does not decide: every [NaN] of a decoded
    snapshot is the one [NaN] object of the decoder. *)
Definition same_object (x y : scalar) : bool :=
  match x, y with
  | SNaN, SNaN => true
  | _, _ => false
  end.

(** [v == w] where [v] is a scalar: a scalar never equals a list or a dict. *)
Definition py_eq (v : scalar) (w : json) : bool :=
  match w with
  | JScalar t => scalar_eq v t
  | _ => false
  end.

(** ** Strings *)

Definition newline : ascii := ascii_of_nat 10.
Definition dot : ascii := "."%char.

(** ['sep'.join(parts)] *)
Fixpoint join (sep : string) (parts : list string) : string :=
  match parts with
  | [] => EmptyString
  | [p] => p
  | p :: rest => (p ++ sep ++ join sep rest)%string
  end.

(** [s.split(".")], with the segment being read carried in [cur]. *)
Fixpoint split_acc (sep : ascii) (cur : string) (s : string) : list string :=
  match s with
  | EmptyString => [cur]
  | String c s' =>
      if Ascii.eqb c sep then cur :: split_acc sep EmptyString s'
      else split_acc sep (cur ++ String c EmptyString)%string s'
  end.

Definition split (sep : ascii) (s : string) : list string :=
  split_acc sep EmptyString s.

(** The decimal digits [0] to [9]: what [\d] matches and [int] reads. *)
Definition is_digit (c : ascii) : bool :=
  (48 <=? nat_of_ascii c)%nat && (nat_of_ascii c <=? 57)%nat.

(** Every character of [s] is a decimal digit. *)
Fixpoint all_digits (s : string) : bool :=
  match s with
  | EmptyString => true
  | String c s' => is_digit c && all_digits s'
  end.

(** The superscript digits two, three and one: digits for [str.isdigit],
    not for [int]. *)
Definition superscript_digit (c : ascii) : bool :=
  (nat_of_ascii c =? 178)%nat || (nat_of_ascii c =? 179)%nat
  || (nat_of_ascii c =? 185)%nat.

(** [c.isdigit()] for one character. *)
Definition isdigit_char (c : ascii) : bool :=
  is_digit c || superscript_digit c.

Fixpoint all_isdigit (s : string) : bool :=
  match s with
  | EmptyString => true
  | String c s' => isdigit_char c && all_isdigit s'
  end.

(** [s.isdigit()]: at least one character, and all of them digits. *)
Definition isdigit (s : string) : bool :=
  match s with
  | EmptyString => false
  | _ => all_isdigit s
  end.

(** [needle in hay] for two strings. *)
Fixpoint substring_of (needle hay : string) : bool :=
  String.prefix needle hay ||
  match hay with
  | EmptyString => false
  | String _ hay' => substring_of needle hay'
  end.

(** ** The VETO patterns

    The regular expressions of [VETO] use literals, character classes,
    [*] and [+] on a single character class, alternation, [^] and [$].
    [re_run] is a backtracking matcher in continuation style: [k] receives
    what is left of the subject, and whether nothing was consumed yet. *)

Inductive cclass : Type :=
| CAny                    (* .     any character but a newline *)
| CDigit                  (* \d *)
| COneOf (s : string)     (* [TR] *)
| CNoneOf (s : string).   (* [^.] *)

Fixpoint mem_ascii (c : ascii) (s : string) : bool :=
  match s with
  | EmptyString => false
  | String d s' => Ascii.eqb c d || mem_ascii c s'
  end.

Definition cclass_match (cl : cclass) (c : ascii) : bool :=
  match cl with
  | CAny => negb (Ascii.eqb c newline)
  | CDigit => is_digit c
  | COneOf s => mem_ascii c s
  | CNoneOf s => negb (mem_ascii c s)
  end.

Inductive regex : Type :=
| RLit (s : string)            (* a literal run of characters *)
| RStar (cl : cclass)          (* cl*  *)
| RPlus (cl : cclass)          (* cl+  *)
| RSet (cl : cclass)           (* one character of cl *)
| RSeq (r1 r2 : regex)
| RAlt (r1 r2 : regex)
| RBegin                       (* ^ *)
| REnd.                        (* $ *)

Fixpoint lit_run (l s : string) : option string :=
  match l with
  | EmptyString => Some s
  | String c l' =>
      match s with
      | EmptyString => None
      | String d s' => if Ascii.eqb c d then lit_run l' s' else None
      end
  end.

(** [cl*] then [k]: every split point is tried. *)
Fixpoint star_run (cl : cclass) (s : string) (k : string -> bool) : bool :=
  k s ||
  match s with
  | EmptyString => false
  | String c s' => cclass_match cl c && star_run cl s' k
  end.

(** [$] without MULTILINE: at the end, or before a final newline. *)
Definition at_end (s : string) : bool :=
  match s with
  | EmptyString => true
  | String c EmptyString => Ascii.eqb c newline
  | _ => false
  end.

Fixpoint re_run (r : regex) (bos : bool) (s : string)
  (k : bool -> string -> bool) : bool :=
  match r with
  | RLit l =>
      match lit_run l s with
      | Some s' => k (bos && (String.length l =? 0)%nat) s'
      | None => false
      end
  | RStar cl =>
      k bos s ||
      match s with
      | EmptyString => false
      | String c s' => cclass_match cl c && star_run cl s' (fun t => k false t)
      end
  | RPlus cl =>
      match s with
      | EmptyString => false
      | String c s' => cclass_match cl c && star_run cl s' (fun t => k false t)
      end
  | RSet cl =>
      match s with
      | EmptyString => false
      | String c s' => cclass_match cl c && k false s'
      end
  | RSeq r1 r2 => re_run r1 bos s (fun b s' => re_run r2 b s' k)
  | RAlt r1 r2 => re_run r1 bos s k || re_run r2 bos s k
  | RBegin => bos && k bos s
  | REnd => at_end s && k bos s
  end.

(** [pattern.match(s)]: the pattern matches a prefix of [s]. *)
Definition re_match (r : regex) (s : string) : bool :=
  re_run r true s (fun _ _ => true).

Fixpoint alt_lits (ws : list string) : regex :=
  match ws with
  | [] => RSet (COneOf EmptyString)
  | [w] => RLit w
  | w :: rest => RAlt (RLit w) (alt_lits rest)
  end.

Definition seqs (rs : list regex) : regex :=
  fold_right RSeq (RLit EmptyString) rs.

(** The eight patterns of [VETO], in the order of the source. *)

(* .*_I$ *)
Definition veto_internal : regex :=
  seqs [RStar CAny; RLit "_I"; REnd].

(* .*\.(reboots|discovered|since|uptime|runtime|freq|CPUTemp|outputFreq|current-date-time)$ *)
Definition veto_volatile : regex :=
  seqs [RStar CAny; RLit ".";
        alt_lits ["reboots"; "discovered"; "since"; "uptime"; "runtime";
                  "freq"; "CPUTemp"; "outputFreq"; "current-date-time"]%string;
        REnd].

(* .*\.stringId *)
Definition veto_string_id : regex :=
  seqs [RStar CAny; RLit ".stringId"].

(* .*\.FanCtrl\(\d+\)$ *)
Definition veto_fan_ctrl : regex :=
  seqs [RStar CAny; RLit ".FanCtrl("; RPlus CDigit; RLit ")"; REnd].

(* .*\.SFP #\d+ [TR]x$ *)
Definition veto_sfp_txrx : regex :=
  seqs [RStar CAny; RLit ".SFP #"; RPlus CDigit; RLit " ";
        RSet (COneOf "TR"); RLit "x"; REnd].

Definition channel_groups : list string :=
  ["volts"; "currents"; "counters"; "temps"; "fans"]%string.

(* .*\.(volts|currents|counters|temps|fans)\.[^.]+$ *)
Definition veto_channel : regex :=
  seqs [RStar CAny; RLit "."; alt_lits channel_groups;
        RLit "."; RPlus (CNoneOf "."); REnd].

(* .*\.SFP #\d+ Temp$ *)
Definition veto_sfp_temp : regex :=
  seqs [RStar CAny; RLit ".SFP #"; RPlus CDigit; RLit " Temp"; REnd].

(* ^_.* *)
Definition veto_private : regex :=
  seqs [RBegin; RLit "_"; RStar CAny].

Definition VETO : list regex :=
  [ veto_internal; veto_volatile; veto_string_id; veto_fan_ctrl;
    veto_sfp_txrx; veto_channel; veto_sfp_temp; veto_private ].

(** [any([_.match(path_str) for _ in VETO])] *)
Definition veto (path_str : string) : bool :=
  existsb (fun r => re_match r path_str) VETO.


(** ** Python operations on snapshot values *)

Fixpoint dict_get (k : string) (d : list (string * json)) : option json :=
  match d with
  | [] => None
  | (k', v) :: rest => if String.eqb k k' then Some v else dict_get k rest
  end.

Definition dict_has (k : string) (d : list (string * json)) : bool :=
  match dict_get k d with
  | Some _ => true
  | None => false
  end.

(** [k in b] for a string [k]: a key of a dict, an element of a list, a
    substring of a string; the other scalars are not iterable. *)
Definition py_in (k : string) (b : json) : res bool :=
  match b with
  | JDict d => Ok (dict_has k d)
  | JList l => Ok (existsb (py_eq (SStr k)) l)
  | JScalar (SStr s) => Ok (substring_of k s)
  | JScalar _ => Raise TypeError
  end.

(** [b[k]] for a string [k]: only a dict can be indexed by a string. *)
Definition py_getitem (b : json) (k : string) : res json :=
  match b with
  | JDict d =>
      match dict_get k d with
      | Some v => Ok v
      | None => Raise KeyError
      end
  | _ => Raise TypeError
  end.

(** [b.keys()] *)
Definition py_keys (b : json) : res (list string) :=
  match b with
  | JDict d => Ok (map fst d)
  | _ => Raise AttributeError
  end.

(** A Python set of scalars: a list without two elements that are the
    same object or equal. *)
Definition set_mem (x : scalar) (s : list scalar) : bool :=
  existsb (fun y => same_object x y || scalar_eq x y) s.

Fixpoint set_of (l : list scalar) : list scalar :=
  match l with
  | [] => []
  | x :: rest => let s := set_of rest in if set_mem x s then s else x :: s
  end.

Definition set_diff (s t : list scalar) : list scalar :=
  filter (fun x => negb (set_mem x t)) s.

Fixpoint hashables (l : list json) : res (list scalar) :=
  match l with
  | [] => Ok []
  | JScalar x :: rest => xs <- hashables rest ;; Ok (x :: xs)
  | _ :: _ => Raise TypeError
  end.

Fixpoint chars (s : string) : list scalar :=
  match s with
  | EmptyString => []
  | String c s' => SStr (String c EmptyString) :: chars s'
  end.

(** [set(x)]: the elements of a list (a list or a dict among them is not
    hashable), the keys of a dict, the characters of a string. *)
Definition py_set (x : json) : res (list scalar) :=
  match x with
  | JList l => xs <- hashables l ;; Ok (set_of xs)
  | JDict d => Ok (set_of (map (fun kv => SStr (fst kv)) d))
  | JScalar (SStr s) => Ok (set_of (chars s))
  | JScalar _ => Raise TypeError
  end.

(** The elements of [set(b.keys()) - set(a.keys())], on key lists. *)
Definition set_difference (bk ak : list string) : list string :=
  filter (fun k => negb (existsb (String.eqb k) ak)) (nodup string_dec bk).

(** The order in which a run iterates over such a set: some arrangement of
    its elements, the same each time the run builds the set from the same
    key lists. *)
Record set_order : Type := mkSetOrder {
  iterate : list string -> list string -> list string;
  iterate_perm :
    forall bk ak, Permutation (iterate bk ak) (set_difference bk ak)
}.

(** [for k in set(b.keys()) - set(a.keys())]: the keys in the order of the
    run. *)
Definition keys_diff (order : set_order) (bk ak : list string)
  : list string :=
  iterate order bk ak.

(** Two orders: that of the keys in [b], and the reverse. *)
Definition insertion_order : set_order :=
  mkSetOrder set_difference (fun bk ak => Permutation_refl _).

Definition reverse_order : set_order :=
  mkSetOrder (fun bk ak => rev (set_difference bk ak))
             (fun bk ak => Permutation_sym (Permutation_rev _)).

(** ** dict_compare *)

(** The test of line 133,
    [len(set(v) - set(b[k])) != 0 or len(set(b[k]) - set(v)) == 0]. *)
Definition list_test (v : json) (b : json) (k : string) : res bool :=
  sv <- py_set v ;;
  bk <- py_getitem b k ;;
  sb <- py_set bk ;;
  Ok (negb (List.length (set_diff sv sb) =? 0)%nat
      || (List.length (set_diff sb sv) =? 0)%nat).

(** [dict_compare(a, b, path)]; the default [path=None] stands for [[]].
    [items_loop] is the loop over [a.items()]: it carries [result], and
    [compare] stands for the recursive call.  The extra keys of [b], a
    Python set, are listed in the [order] of the run.  Line 134 calls
    [join] on a list, which has no such attribute: reaching it raises
    [AttributeError]. *)
Fixpoint items_loop (compare : json -> json -> list string -> res (list string))
  (b : json) (path : list string) (its : list (string * json))
  (result : list string) {struct its} : res (list string) :=
  match its with
  | [] => Ok result
  | (k, v) :: rest =>
      let working_path := path ++ [k] in
      let path_str := join "." working_path in
      present <- py_in k b ;;
      if negb present then items_loop compare b path rest (result ++ [path_str])
      else
        match v with
        | JDict _ =>
            bk <- py_getitem b k ;;
            sub <- compare v bk working_path ;;
            items_loop compare b path rest (result ++ sub)
        | JList _ =>
            if veto path_str then items_loop compare b path rest result
            else
              changed <- list_test v b k ;;
              if changed then Raise AttributeError
              else items_loop compare b path rest result
        | JScalar x =>
            if veto path_str then items_loop compare b path rest result
            else
              bk <- py_getitem b k ;;
              if negb (py_eq x bk)
              then items_loop compare b path rest (result ++ [path_str])
              else items_loop compare b path rest result
        end
  end.

Section Compare.

Variable order : set_order.

Fixpoint dict_compare (a b : json) (path : list string) {struct a}
  : res (list string) :=
  match a with
  | JDict items =>
      result <- items_loop dict_compare b path items [] ;;
      bkeys <- py_keys b ;;
      Ok (result ++
          map (fun k => join "." (path ++ [k]))
              (keys_diff order bkeys (map fst items)))
  | _ => Raise AttributeError
  end.

End Compare.

(** ** The outside world: HTTP, the clock and the two loggers

    [requests.get] and [time.time] are answered by an environment: [net n r]
    is what the [n]-th request of the run returns or raises when it is the
    request [r], and [clock n] is the [n]-th reading of the clock.  The
    [world] records the requests issued, the clock readings taken and the
    records handed to the loggers [LOG] and [OUTPUT]. *)

Record request : Type := mkRequest {
  req_url : string;
  req_params : list (string * string)
}.

(** A response: its status code, and its body when it parses as JSON. *)
Record response : Type := mkResponse {
  status_code : Z;
  body : option json
}.

Inductive logger : Type := LOG | OUTPUT.
Inductive level : Type := DEBUG | INFO | WARNING | ERROR.

(** The log calls of the source, with their arguments. *)
Inductive message : Type :=
| FailedMegapixelCheck (status : Z)
| Initialized (id : string)
| SampleFailed (id : string) (error : exn)
| AppendedSample (id : string)
| ErrorLoading (status : Z) (id : string)
| Comparing (id : string) (timestamp_a timestamp_b : Q)
| Change (id key : string) (old new : json)
| KeyErrorAt (part address : string)
| Ignoring (host : string) (error : exn)
| HostsIgnored (n : Z)
| InitializingProcessors
| ProcessStarted.

Record world : Type := mkWorld {
  issued : list request;
  ticks : nat;
  logged : list (logger * level * message)
}.

Definition world0 : world := mkWorld [] 0 [].

Definition M (A : Type) : Type := world -> res A * world.

Definition ret {A : Type} (a : A) : M A := fun w => (Ok a, w).

Definition raise {A : Type} (e : exn) : M A := fun w => (Raise e, w).

Definition mbind {A B : Type} (m : M A) (f : A -> M B) : M B :=
  fun w =>
    match m w with
    | (Ok a, w') => f a w'
    | (Raise e, w') => (Raise e, w')
    end.

Notation "x <-- m ;; k" := (mbind m (fun x => k))
  (at level 61, m at next level, right associativity).
Notation "m ;;; k" := (mbind m (fun _ => k))
  (at level 61, right associativity).

Definition lift {A : Type} (r : res A) : M A := fun w => (r, w).

(** The body of a [try]: what it returned or raised, for the [except]
    clauses to inspect. *)
Definition attempt {A : Type} (m : M A) : M (res A) :=
  fun w => let (r, w') := m w in (Ok r, w').

Definition emit (lg : logger) (lv : level) (msg : message) : M unit :=
  fun w => (Ok tt, mkWorld (issued w) (ticks w) (logged w ++ [(lg, lv, msg)])).

Fixpoint for_each {A : Type} (l : list A) (f : A -> M unit) : M unit :=
  match l with
  | [] => ret tt
  | x :: rest => f x ;;; for_each rest f
  end.

(** ** get_value *)

Fixpoint get_value_loop (cursor : json) (parts : list string)
  (address : string) : M json :=
  match parts with
  | [] => ret cursor
  | part :: rest =>
      match py_getitem cursor part with
      | Ok next => get_value_loop next rest address
      | Raise KeyError =>
          emit LOG WARNING (KeyErrorAt part address) ;;;
          ret (JScalar SNone)
      | Raise e => raise e
      end
  end.

Definition get_value (cursor : json) (address : string) : M json :=
  get_value_loop cursor (split dot address) address.

(** ** Python sequences and conversions used by Processor *)

(** [l[i:]] *)
Definition slice_from {A : Type} (i : Z) (l : list A) : list A :=
  let n := Z.of_nat (List.length l) in
  let start := if i <? 0 then Z.max (n + i) 0 else Z.min i n in
  skipn (Z.to_nat start) l.

(** [l[-1]] *)
Fixpoint list_last {A : Type} (l : list A) : res A :=
  match l with
  | [] => Raise IndexError
  | [x] => Ok x
  | _ :: rest => list_last rest
  end.

(** [s[-1]] *)
Fixpoint str_last (s : string) : res ascii :=
  match s with
  | EmptyString => Raise IndexError
  | String c EmptyString => Ok c
  | String _ s' => str_last s'
  end.

(** [int(c)] for a string of one character. *)
Definition int_of_char (c : ascii) : res Z :=
  if is_digit c then Ok (Z.of_nat (nat_of_ascii c) - 48) else Raise ValueError.

(** [str(n)] for an integer. *)
Definition str_of_int (n : Z) : string := NilZero.string_of_int (Z.to_int n).

Definition success (status : Z) : bool := (199 <? status) && (status <? 300).

(** [res.raise_for_status()] of requests: statuses 400 to 599 raise. *)
Definition raise_for_status (r : response) : res unit :=
  if (400 <=? status_code r) && (status_code r <? 600)
  then Raise HTTPError else Ok tt.

(** [res.json()] *)
Definition response_json (r : response) : res json :=
  match body r with
  | Some j => Ok j
  | None => Raise ValueError
  end.

Definition MEGAPIXEL_URL (host : string) : string :=
  ("http://" ++ host ++ "/api/v1/data")%string.

Definition BROMPTON_URL (host : string) : string :=
  ("http://" ++ host ++ "/api/")%string.

(** ** class Processor *)

Module Processor.

Record t : Type := mk {
  url : string;
  host : string;
  manu : string;
  id : string;
  data : list (Q * json)
}.

Definition max_samples : Z := 3.

Definition set_data (self : t) (d : list (Q * json)) : t :=
  mk (url self) (host self) (manu self) (id self) d.

(** Lines 62 to 66: the label of the processor. *)
Definition display_id (manu host : string) : res string :=
  let id := (manu ++ " " ++ host)%string in
  ip_parts_last <- list_last (split dot host) ;;
  if isdigit ip_parts_last then
    c <- str_last host ;;
    n <- int_of_char c ;;
    Ok (manu ++ " " ++ str_of_int (n + 1))%string
  else Ok id.

Section Env.

Variable order : set_order.
Variable net : nat -> request -> res response.
Variable clock : nat -> Q.

Definition requests_get (url : string) (params : list (string * string))
  : M response :=
  fun w =>
    let r := mkRequest url params in
    (net (List.length (issued w)) r,
     mkWorld (issued w ++ [r]) (ticks w) (logged w)).

Definition time_time : M Q :=
  fun w => (Ok (clock (ticks w)),
            mkWorld (issued w) (S (ticks w)) (logged w)).

Definition __init__ (host : string) : M t :=
  let url := MEGAPIXEL_URL host in
  let manu := "Megapixel"%string in
  res <-- requests_get url [("sys.info.serial", "")]%string ;;
  um <-- (if negb (success (status_code res)) then
            emit LOG DEBUG (FailedMegapixelCheck (status_code res)) ;;;
            let url := BROMPTON_URL host in
            let manu := "Brompton"%string in
            res <-- requests_get (url ++ "system/processor-type")%string [] ;;
            lift (raise_for_status res) ;;;
            ret (url, manu)
          else ret (url, manu)) ;;
  id <-- lift (display_id (snd um) host) ;;
  emit LOG INFO (Initialized id) ;;;
  ret (mk (fst um) host (snd um) id []).

Definition sample (self : t) : M t :=
  timestamp <-- time_time ;;
  got <-- attempt (requests_get (url self) []) ;;
  match got with
  | Raise ConnectionError =>
      emit LOG WARNING (SampleFailed (id self) ConnectionError) ;;;
      ret self
  | Raise e => raise e
  | Ok res =>
      self1 <-- (if success (status_code res) then
                   j <-- lift (response_json res) ;;
                   emit LOG DEBUG (AppendedSample (id self)) ;;;
                   ret (set_data self (data self ++ [(timestamp, j)]))
                 else
                   emit LOG WARNING (ErrorLoading (status_code res) (id self)) ;;;
                   ret self) ;;
      ret (set_data self1 (slice_from (- max_samples) (data self1)))
  end.

Definition compare (self : t) : M unit :=
  let samples := slice_from (-2) (data self) in
  if negb (List.length samples =? 2)%nat then ret tt
  else
    match samples with
    | [(timestamp_a, data_a); (timestamp_b, data_b)] =>
        emit LOG DEBUG (Comparing (id self) timestamp_a timestamp_b) ;;;
        changes <-- lift (dict_compare order data_a data_b []) ;;
        for_each changes (fun key =>
          old <-- get_value data_a key ;;
          new <-- get_value data_b key ;;
          emit OUTPUT INFO (Change (id self) key old new))
    | _ => ret tt
    end.

End Env.

End Processor.

(** ** main: building the polling set, and one polling cycle *)

Section Main.

Variable order : set_order.
Variable net : nat -> request -> res response.
Variable clock : nat -> Q.

(** Lines 177 to 186. *)
Fixpoint build_processors (hosts : list string) (processors : list Processor.t)
  : M (list Processor.t) :=
  match hosts with
  | [] => ret processors
  | host :: rest =>
      got <-- attempt (Processor.__init__ net host) ;;
      match got with
      | Ok p => build_processors rest (processors ++ [p])
      | Raise ConnectionError =>
          emit LOG WARNING (Ignoring host ConnectionError) ;;;
          build_processors rest processors
      | Raise HTTPError =>
          emit LOG WARNING (Ignoring host HTTPError) ;;;
          build_processors rest processors
      | Raise e => raise e
      end
  end.

Definition init_processors (hosts : list string) : M (list Processor.t) :=
  emit LOG DEBUG InitializingProcessors ;;;
  processors <-- build_processors hosts [] ;;
  (if negb (List.length hosts =? List.length processors)%nat
   then emit LOG ERROR
          (HostsIgnored (Z.of_nat (List.length hosts)
                         - Z.of_nat (List.length processors)))
   else ret tt) ;;;
  emit OUTPUT INFO ProcessStarted ;;;
  ret processors.

(** Lines 191 to 193: one pass over the processors. *)
Fixpoint poll_cycle (processors : list Processor.t) : M (list Processor.t) :=
  match processors with
  | [] => ret []
  | proc :: rest =>
      proc' <-- Processor.sample net clock proc ;;
      Processor.compare order proc' ;;;
      rest' <-- poll_cycle rest ;;
      ret (proc' :: rest')
  end.

End Main.

(** ** Notions used to state the properties *)

(** The pairs of values that [dict_compare a b path] compares: the pair it
    is called on, and below a compared pair of dicts every key whose value
    in the first is a dict and which the second has too. *)
Inductive compared (a b : json) (path : list string)
  : json -> json -> list string -> Prop :=
| compared_root : compared a b path a b path
| compared_child (da db : list (string * json)) (path' : list string)
    (k : string) (dv : list (string * json)) (w : json) :
    compared a b path (JDict da) (JDict db) path' ->
    In (k, JDict dv) da ->
    dict_get k db = Some w ->
    compared a b path (JDict dv) w (path' ++ [k]).

(** Key [k] is in exactly one of two dicts. *)
Definition removed_key (k : string) (da db : list (string * json)) : Prop :=
  In k (map fst da) /\ ~ In k (map fst db).

Definition added_key (k : string) (da db : list (string * json)) : Prop :=
  ~ In k (map fst da) /\ In k (map fst db).

(** Key [k] holds a scalar in the first dict and a different value in the
    second, and its path [p] is not vetoed. *)
Definition changed_leaf (k p : string) (da db : list (string * json)) : Prop :=
  veto p = false /\
  exists x w,
    In (k, JScalar x) da /\ dict_get k db = Some w /\ py_eq x w = false.

(** Where a reported path comes from: a key of a compared pair of dicts
    that was removed, added, or holds a changed scalar. *)
Definition origin (a b : json) (path : list string) (p : string) : Prop :=
  exists da db path' k,
    compared a b path (JDict da) (JDict db) path' /\
    p = join "." (path' ++ [k]) /\
    (removed_key k da db \/ added_key k da db \/ changed_leaf k p da db).

(** Snapshots without lists and without [NaN], whose dicts bind each key
    once. *)
Inductive plain : json -> Prop :=
| plain_scalar (x : scalar) : x <> SNaN -> plain (JScalar x)
| plain_dict (d : list (string * json)) :
    NoDup (map fst d) ->
    (forall k v, In (k, v) d -> plain v) ->
    plain (JDict d).

(** The final dot-delimited segment of an address. *)
Definition final_segment (address seg : string) : Prop :=
  mem_ascii dot seg = false /\
  (address = seg \/ exists pre, address = (pre ++ "." ++ seg)%string).

Definition digit_value (c : ascii) : Z := Z.of_nat (nat_of_ascii c) - 48.

(** Runs of [sample()] on one processor: [sampled net clock p ss p'] when
    calls of [sample], in any worlds, lead from [p] to [p'], and [ss] are
    the samples of the calls that got a 2xx answer with a JSON body, in
    order.  The other calls met a transport failure or another status, or
    raised, which leaves the processor as it was. *)
Inductive sampled (net : nat -> request -> res response) (clock : nat -> Q)
  : Processor.t -> list (Q * json) -> Processor.t -> Prop :=
| sampled_none (p : Processor.t) : sampled net clock p [] p
| sampled_append (p p1 p2 : Processor.t) (w w1 : world) (r : response)
    (j : json) (ss : list (Q * json)) :
    net (List.length (issued w)) (mkRequest (Processor.url p) []) = Ok r ->
    success (status_code r) = true ->
    body r = Some j ->
    Processor.sample net clock p w = (Ok p1, w1) ->
    sampled net clock p1 ss p2 ->
    sampled net clock p ((clock (ticks w), j) :: ss) p2
| sampled_skip (p p1 p2 : Processor.t) (w w1 : world)
    (ss : list (Q * json)) :
    (net (List.length (issued w)) (mkRequest (Processor.url p) [])
       = Raise ConnectionError \/
     exists r,
       net (List.length (issued w)) (mkRequest (Processor.url p) []) = Ok r /\
       success (status_code r) = false) ->
    Processor.sample net clock p w = (Ok p1, w1) ->
    sampled net clock p1 ss p2 ->
    sampled net clock p ss p2
| sampled_raised (p p2 : Processor.t) (w w1 : world) (e : exn)
    (ss : list (Q * json)) :
    Processor.sample net clock p w = (Raise e, w1) ->
    sampled net clock p ss p2 ->
    sampled net clock p ss p2.

(** The two probes of [__init__] for a host, as requests. *)
Definition megapixel_probe (host : string) : request :=
  mkRequest (MEGAPIXEL_URL host) [("sys.info.serial", "")]%string.

Definition brompton_probe (host : string) : request :=
  mkRequest (BROMPTON_URL host ++ "system/processor-type")%string [].

(** ** Example snapshots and environments *)

Definition one_list : json := JDict [("x", JList [JInt 1])]%string.
Definition longer_list : json := JDict [("x", JList [JInt 1; JInt 2])]%string.
Definition other_list : json := JDict [("x", JList [JInt 2])]%string.
Definition list_and_gone : json :=
  JDict [("x", JList [JInt 1]); ("gone", JInt 1)]%string.

Definition map_under_k : json := JDict [("k", JDict [])]%string.
Definition scalar_under_k : json := JDict [("k", JInt 1)]%string.
Definition list_under_k : json := JDict [("k", JList [])]%string.

Definition temps_30 : json :=
  JDict [("temps", JDict [("fan1", JInt 30)])]%string.
Definition temps_45 : json :=
  JDict [("temps", JDict [("fan1", JInt 45)])]%string.

Definition sys_uptime : json :=
  JDict [("sys", JDict [("uptime", JInt 5)])]%string.
Definition sys_empty : json := JDict [("sys", JDict [])]%string.

(** Every request is answered 200 with a JSON body carrying its number. *)
Definition net_ok : nat -> request -> res response :=
  fun n _ => Ok (mkResponse 200 (Some (JDict [("n", JInt (Z.of_nat n))]%string))).





(** No connection can be made. *)
Definition net_down : nat -> request -> res response :=
  fun _ _ => Raise ConnectionError.

Definition clock_nat (n : nat) : Q := inject_Z (Z.of_nat n).

(** What [sample()] appends under [net_ok] in a world with no request
    issued and [i] clock readings taken. *)
Definition sample_at (i : nat) : Q * json :=
  (clock_nat i, JDict [("n", JInt 0)]%string).

(** The processor that [__init__] builds for host [h] under [net_ok]. *)
Definition processor_h : Processor.t :=
  Processor.mk (MEGAPIXEL_URL "h") "h" "Megapixel" "Megapixel h" [].


(** ** Notions used for the further properties *)

(** A list under key [k] of [da] that stops [dict_compare]: the key is in
    [db] too, its path is not vetoed, and the test of line 133 raises or
    holds. *)
Definition list_trouble (da db : list (string * json)) (path : list string)
  (k : string) (l : list json) : Prop :=
  In (k, JList l) da /\
  dict_has k db = true /\
  veto (join "." (path ++ [k])) = false /\
  list_test (JList l) (JDict db) k <> Ok false.

(** What makes [dict_compare a b path] raise: [a] is not a dict, or among
    the pairs it compares one has a second value that is not a dict, or a
    list in the way. *)
Definition trouble (a b : json) (path : list string) : Prop :=
  (forall d, a <> JDict d) \/
  exists a' b' path',
    compared a b path a' b' path' /\
    ((forall d, b' <> JDict d) \/
     exists da db k l,
       a' = JDict da /\ b' = JDict db /\ list_trouble da db path' k l).

(** [path + [k]] joined, for every key of a list. *)
Definition key_paths (path : list string) (keys : list string) : list string :=
  map (fun k => join "." (path ++ [k])) keys.


Definition two_keys : json := JDict [("a", JInt 1); ("b", JDict [])]%string.


(** The value under a chain of keys, through nested dicts. *)
Fixpoint value_at (j : json) (keys : list string) : option json :=
  match keys with
  | [] => Some j
  | k :: rest =>
      match j with
      | JDict d =>
          match dict_get k d with
          | Some v => value_at v rest
          | None => None
          end
      | _ => None
      end
  end.

(** What a change line shows for a path: the value under its segments, or
    [None]. *)
Definition shown (j : json) (p : string) : json :=
  match value_at j (split dot p) with
  | Some v => v
  | None => JScalar SNone
  end.

(** Snapshots whose dicts bind each key once, with keys that hold no dot. *)
Inductive keys_ok : json -> Prop :=
| keys_ok_scalar (x : scalar) : keys_ok (JScalar x)
| keys_ok_list (l : list json) : keys_ok (JList l)
| keys_ok_dict (d : list (string * json)) :
    NoDup (map fst d) ->
    (forall k, In k (map fst d) -> mem_ascii dot k = false) ->
    (forall k v, In (k, v) d -> keys_ok v) ->
    keys_ok (JDict d).

(** The world after more log records. *)
Definition add_log (w : world) (extra : list (logger * level * message))
  : world :=
  mkWorld (issued w) (ticks w) (logged w ++ extra).

(** The records handed to [OUTPUT], the change log. *)
Definition outputs (entries : list (logger * level * message))
  : list (logger * level * message) :=
  filter (fun e => match e with
                   | (OUTPUT, _, _) => true
                   | _ => false
                   end) entries.

Definition nested_ab : json :=
  JDict [("a", JDict [("b", JInt 7)])]%string.

Definition dotted_key : json := JDict [("a.b", JInt 1)]%string.


(** Two samples of a processor whose label and reading changed. *)
Definition sample_old : Q * json :=
  (0%Q, JDict [("name", JStr "X"); ("sys", JDict [("load", JInt 1)])]%string).
Definition sample_new : Q * json :=
  (1%Q, JDict [("name", JStr "Y"); ("sys", JDict [("load", JInt 2)])]%string).
Definition processor_xy : Processor.t :=
  Processor.mk "u" "h" "Megapixel" "Megapixel h" [sample_old; sample_new].


(** The request of [sample()] for a processor. *)
Definition sample_request (self : Processor.t) : request :=
  mkRequest (Processor.url self) [].



(** Two processors are the same device: only the history may differ. *)
Definition same_device (p q : Processor.t) : Prop :=
  Processor.url q = Processor.url p /\
  Processor.host q = Processor.host p /\
  Processor.manu q = Processor.manu p /\
  Processor.id q = Processor.id p.

(** The world after a request and a clock reading, the log apart. *)
Definition after_request (w : world) (r : request) : world :=
  mkWorld (issued w ++ [r]) (S (ticks w)) (logged w).

(** Every 2xx answer carries a body that is not JSON. *)
Definition net_not_json : nat -> request -> res response :=
  fun _ _ => Ok (mkResponse 200 None).

(** Every request is answered 503. *)
Definition net_503 : nat -> request -> res response :=
  fun _ _ => Ok (mkResponse 503 None).





(** The names of the second pattern of [VETO]. *)
Definition volatile_names : list string :=
  ["reboots"; "discovered"; "since"; "uptime"; "runtime";
   "freq"; "CPUTemp"; "outputFreq"; "current-date-time"]%string.


(** [p] is a path below key [k] of the dict at [path], through keys that
    hold no dot. *)
Definition under (path : list string) (k p : string) : Prop :=
  exists q,
    Forall (fun s => mem_ascii dot s = false) (k :: q) /\
    p = join "." (path ++ k :: q).






(** Every request times out while the answer is read. *)
Definition net_read_timeout : nat -> request -> res response :=
  fun _ _ => Raise ReadTimeout.

(** A snapshot with a [NaN] reading. *)
Definition nan_reading : json := JDict [("load", JScalar SNaN)]%string.

(** A processor that sampled it twice. *)
Definition processor_nan : Processor.t :=
  Processor.mk "u" "h" "Megapixel" "Megapixel h"
    [(0%Q, nan_reading); (1%Q, nan_reading)].

(** ** Tactics: running [__init__] and [sample] one step at a time *)

Ltac run_init :=
  unfold Processor.__init__, mbind, Processor.requests_get, lift, emit, ret;
  cbn [issued ticks logged fst snd].

Ltac run_sample :=
  unfold Processor.sample, mbind, attempt, Processor.time_time,
    Processor.requests_get, lift, emit, ret;
  cbn [issued ticks logged].

(* ================================================================= *)
(** * Properties *)

(** ** The keys that only the second dict has *)

Lemma set_difference_in (k : string) (bk ak : list string) :
  In k (set_difference bk ak) <-> In k bk /\ ~ In k ak.
Proof.
  unfold set_difference. rewrite filter_In, nodup_In, negb_true_iff.
  split; intros [Hb Ha]; split; try assumption.
  - intros Hin. assert (E : existsb (String.eqb k) ak = true).
    { apply existsb_exists. exists k. split; [exact Hin |].
      apply String.eqb_refl. }
    congruence.
  - destruct (existsb (String.eqb k) ak) eqn:E; [| reflexivity].
    apply existsb_exists in E. destruct E as [k' [Hin E]].
    apply String.eqb_eq in E. subst. contradiction.
Qed.

Lemma set_difference_nodup (bk ak : list string) :
  NoDup (set_difference bk ak).
Proof. apply NoDup_filter, NoDup_nodup. Qed.

(** Whatever the order of the run, the keys iterated are the elements of
    the set, each once. *)
Lemma keys_diff_perm (order : set_order) (bk ak : list string) :
  Permutation (keys_diff order bk ak) (set_difference bk ak).
Proof. apply iterate_perm. Qed.

Lemma keys_diff_in {order : set_order} (k : string) (bk ak : list string) :
  In k (keys_diff order bk ak) <-> In k bk /\ ~ In k ak.
Proof.
  rewrite <- set_difference_in. split; apply Permutation_in.
  - apply keys_diff_perm.
  - apply Permutation_sym, keys_diff_perm.
Qed.

Lemma keys_diff_nodup (order : set_order) (bk ak : list string) :
  NoDup (keys_diff order bk ak).
Proof.
  apply (Permutation_NoDup (Permutation_sym (keys_diff_perm order bk ak))).
  apply set_difference_nodup.
Qed.

Lemma keys_diff_same (order : set_order) (ks : list string) :
  keys_diff order ks ks = [].
Proof.
  destruct (keys_diff order ks ks) as [| k rest] eqn:E; [reflexivity |].
  assert (Hin : In k (keys_diff order ks ks)) by (rewrite E; now left).
  apply keys_diff_in in Hin. tauto.
Qed.

Lemma keys_diff_nil_l (order : set_order) (ak : list string) :
  keys_diff order [] ak = [].
Proof.
  destruct (keys_diff order [] ak) as [| k rest] eqn:E; [reflexivity |].
  assert (Hin : In k (keys_diff order [] ak)) by (rewrite E; now left).
  apply keys_diff_in in Hin. now destruct Hin.
Qed.

(** [dict_compare] on two dicts: the loop over the items of the first,
    then the keys that only the second has. *)
Lemma dict_compare_dict (order : set_order) (items db : list (string * json))
  (path : list string) :
  dict_compare order (JDict items) (JDict db) path =
    (result <- items_loop (dict_compare order) (JDict db) path items [] ;;
     Ok (result ++
         key_paths path (keys_diff order (map fst db) (map fst items)))).
Proof. reflexivity. Qed.

(** ** dict_compare on lists and on mismatched values *)

(** C1.  Two structurally identical snapshots should compare to the empty
    change list.  On the snapshot [{"x": [1]}] compared with itself, whose
    path [x] no pattern vetoes, [dict_compare] raises [AttributeError]
    instead: the second clause of line 133 holds when the lists are equal
    as sets, and line 134 then calls [join] on a list. *)
Theorem dict_compare_identical_lists_raise (order : set_order) :
  veto "x" = false /\
  dict_compare order one_list one_list [] = Raise AttributeError.
Proof. split; vm_compute; reflexivity. Qed.

(** C2.  A list path that is not vetoed should be reported exactly when the
    two lists differ as sets.  [dict_compare] never reports it: when the
    list of [a] is a strict subset of that of [b] the test of line 133 is
    false and the path is left out; when the test is true, line 134 raises
    [AttributeError]. *)
Theorem dict_compare_list_never_reported (order : set_order) :
  veto "x" = false /\
  dict_compare order one_list longer_list [] = Ok [] /\
  dict_compare order one_list other_list [] = Raise AttributeError.
Proof.
  repeat split; try (vm_compute; reflexivity).
  unfold one_list, longer_list. rewrite dict_compare_dict.
  cbn [map fst]. rewrite keys_diff_same. vm_compute. reflexivity.
Qed.

(** C5.  [dict_compare] should only be called on pairs of dicts and never
    raise.  When a key holds a dict in [a] and a scalar or a list in [b],
    line 129 recurses on the dict and that value, and [b.keys()] at line 138
    raises [AttributeError]. *)
Theorem dict_compare_map_against_scalar_raises (order : set_order) :
  compared map_under_k scalar_under_k [] (JDict []) (JInt 1) ["k"%string] /\
  dict_compare order map_under_k scalar_under_k [] = Raise AttributeError /\
  dict_compare order map_under_k list_under_k [] = Raise AttributeError.
Proof.
  split; [| split; vm_compute; reflexivity].
  apply (compared_child _ _ _ [("k", JDict [])]%string
           [("k", JInt 1)]%string [] "k"%string [] (JInt 1)).
  - apply compared_root.
  - left; reflexivity.
  - reflexivity.
Qed.

(** ** The sampling window *)

Lemma slice_from_neg {A : Type} (n : nat) (l : list A) :
  (0 < n)%nat ->
  slice_from (- Z.of_nat n) l = skipn (List.length l - n) l.
Proof.
  intros Hn. unfold slice_from.
  destruct (- Z.of_nat n <? 0) eqn:E; [| apply Z.ltb_ge in E; lia].
  f_equal. lia.
Qed.

Lemma slice_from_length {A : Type} (n : nat) (l : list A) :
  (0 < n)%nat ->
  (List.length (slice_from (- Z.of_nat n) l) <= n)%nat.
Proof.
  intros Hn. rewrite slice_from_neg by assumption.
  rewrite length_skipn. lia.
Qed.

(** C9.  With fewer than two samples in the history, [compare] returns at
    line 93: it raises nothing and leaves the world, so both logs, as it
    found them. *)
Theorem compare_needs_two_samples (order : set_order) :
  forall (self : Processor.t) (w : world),
    (List.length (Processor.data self) < 2)%nat ->
    Processor.compare order self w = (Ok tt, w).
Proof.
  intros self w H. unfold Processor.compare.
  destruct (Processor.data self) as [| s1 [| s2 rest]]; simpl in H.
  - reflexivity.
  - reflexivity.
  - lia.
Qed.

Lemma compare_needs_two_samples_witness :
  Processor.compare insertion_order
    (Processor.mk "u" "h" "Megapixel" "Megapixel h" [(0%Q, one_list)]) world0
  = (Ok tt, world0).
Proof.
  apply (compare_needs_two_samples insertion_order
           (Processor.mk "u" "h" "Megapixel" "Megapixel h" [(0%Q, one_list)])
           world0).
  simpl. lia.
Defined.

Lemma sample_on_connection_error :
  forall (net : nat -> request -> res response) (clock : nat -> Q)
         (self : Processor.t) (w : world),
    net (List.length (issued w)) (mkRequest (Processor.url self) [])
      = Raise ConnectionError ->
    Processor.sample net clock self w =
      (Ok self,
       mkWorld (issued w ++ [mkRequest (Processor.url self) []])
               (S (ticks w))
               (logged w ++
                [(LOG, WARNING,
                  SampleFailed (Processor.id self) ConnectionError)])).
Proof.
  intros net clock self w H.
  unfold Processor.sample, mbind, attempt, Processor.time_time,
    Processor.requests_get. simpl. rewrite H. reflexivity.
Qed.

(** What [sample] does not catch leaves it with nothing logged. *)
Lemma sample_propagates (net : nat -> request -> res response)
  (clock : nat -> Q) (self : Processor.t) (w : world) (e : exn) :
  (net (List.length (issued w)) (sample_request self) = Raise e /\
   e <> ConnectionError) \/
  (exists r,
     net (List.length (issued w)) (sample_request self) = Ok r /\
     success (status_code r) = true /\ body r = None /\ e = ValueError) ->
  Processor.sample net clock self w
    = (Raise e, after_request w (sample_request self)).
Proof.
  intros H. run_sample. unfold sample_request in H.
  destruct H as [[Hnet Hne] | [r [Hnet [Hs [Hb ->]]]]]; rewrite Hnet.
  - destruct e; try reflexivity. congruence.
  - rewrite Hs. unfold response_json. rewrite Hb. reflexivity.
Qed.

(** C8, as the code has it.  When the request of [sample] raises
    [ConnectionError], the error requests raises for a refused connection
    or a connection attempt that timed out, [sample] logs one warning on
    [LOG] and returns normally with the processor, so its history,
    unchanged; a polling cycle goes on to [compare] instead of stopping
    there.  When the request raises [ReadTimeout], the answer timing out,
    [sample] raises it with nothing logged, and the polling cycle stops
    there. *)
Theorem sample_transport_failure (order : set_order) :
  forall (net : nat -> request -> res response) (clock : nat -> Q)
         (self : Processor.t) (w : world),
    (net (List.length (issued w)) (mkRequest (Processor.url self) [])
       = Raise ConnectionError ->
     Processor.sample net clock self w =
       (Ok self,
        mkWorld (issued w ++ [mkRequest (Processor.url self) []])
                (S (ticks w))
                (logged w ++
                 [(LOG, WARNING,
                   SampleFailed (Processor.id self) ConnectionError)])) /\
     forall rest : list Processor.t,
       poll_cycle order net clock (self :: rest) w =
         (Processor.compare order self ;;;
          rest' <-- poll_cycle order net clock rest ;;
          ret (self :: rest'))
           (mkWorld (issued w ++ [mkRequest (Processor.url self) []])
                    (S (ticks w))
                    (logged w ++
                     [(LOG, WARNING,
                       SampleFailed (Processor.id self) ConnectionError)]))) /\
    (net (List.length (issued w)) (mkRequest (Processor.url self) [])
       = Raise ReadTimeout ->
     Processor.sample net clock self w =
       (Raise ReadTimeout,
        mkWorld (issued w ++ [mkRequest (Processor.url self) []])
                (S (ticks w)) (logged w)) /\
     forall rest : list Processor.t,
       poll_cycle order net clock (self :: rest) w =
         (Raise ReadTimeout,
          mkWorld (issued w ++ [mkRequest (Processor.url self) []])
                  (S (ticks w)) (logged w))).
Proof.
  intros net clock self w. split.
  - intros H.
    pose proof (sample_on_connection_error net clock self w H) as Hs.
    split; [exact Hs |].
    intros rest. simpl. unfold mbind at 1. rewrite Hs. reflexivity.
  - intros H.
    assert (Hs : Processor.sample net clock self w =
                 (Raise ReadTimeout, after_request w (sample_request self))).
    { apply sample_propagates. left. split; [exact H | discriminate]. }
    split; [exact Hs |].
    intros rest. cbn [poll_cycle]. unfold mbind at 1. now rewrite Hs.
Qed.

Lemma sample_transport_failure_witness :
  (Processor.sample net_down clock_nat
     (Processor.mk "u" "h" "Megapixel" "Megapixel h" [(0%Q, one_list)]) world0
   = (Ok (Processor.mk "u" "h" "Megapixel" "Megapixel h" [(0%Q, one_list)]),
      mkWorld [mkRequest "u" []] 1
        [(LOG, WARNING, SampleFailed "Megapixel h" ConnectionError)])) /\
  (Processor.sample net_read_timeout clock_nat
     (Processor.mk "u" "h" "Megapixel" "Megapixel h" [(0%Q, one_list)]) world0
   = (Raise ReadTimeout, mkWorld [mkRequest "u" []] 1 [])).
Proof.
  split.
  - apply (proj1 (proj1 (sample_transport_failure insertion_order
             net_down clock_nat
             (Processor.mk "u" "h" "Megapixel" "Megapixel h" [(0%Q, one_list)])
             world0) eq_refl)).
  - apply (proj1 (proj2 (sample_transport_failure insertion_order
             net_read_timeout clock_nat
             (Processor.mk "u" "h" "Megapixel" "Megapixel h" [(0%Q, one_list)])
             world0) eq_refl)).
Defined.

(** C8, as stated, fails.  A read timeout is a transport failure that
    requests raises as [ReadTimeout], which is not a [ConnectionError]:
    the [except] clause of line 76 does not catch it.  [sample] raises it
    and logs no warning, and the polling cycle ends before [compare] and
    before the second processor is sampled: one request was issued. *)
Lemma sample_transport_failure_counterexample :
  net_read_timeout 0%nat (sample_request processor_h) = Raise ReadTimeout /\
  Processor.sample net_read_timeout clock_nat processor_h world0 =
    (Raise ReadTimeout, mkWorld [sample_request processor_h] 1 []) /\
  poll_cycle insertion_order net_read_timeout clock_nat
    [processor_h; processor_xy] world0 =
    (Raise ReadTimeout, mkWorld [sample_request processor_h] 1 []).
Proof. repeat split. Qed.

(** ** The label of a processor *)

Lemma append_nil_r (s : string) : (s ++ "")%string = s.
Proof. induction s; simpl; [reflexivity | now rewrite IHs]. Qed.

Lemma append_assoc (s t u : string) :
  ((s ++ t) ++ u)%string = (s ++ (t ++ u))%string.
Proof. induction s; simpl; [reflexivity | now rewrite IHs]. Qed.

Lemma list_last_cons {A : Type} (x : A) (l : list A) :
  l <> [] -> list_last (x :: l) = list_last l.
Proof. destruct l; [congruence | reflexivity]. Qed.

Lemma split_acc_not_nil (sep : ascii) (s cur : string) :
  split_acc sep cur s <> [].
Proof.
  revert cur. induction s as [| c s IH]; intros cur; simpl.
  - discriminate.
  - destruct (Ascii.eqb c sep); [discriminate | apply IH].
Qed.

Lemma split_acc_last_no_sep (sep : ascii) (s cur : string) :
  mem_ascii sep s = false ->
  list_last (split_acc sep cur s) = Ok (cur ++ s)%string.
Proof.
  revert cur. induction s as [| c s IH]; intros cur H; simpl in *.
  - now rewrite append_nil_r.
  - apply orb_false_iff in H. destruct H as [Hc Hs].
    rewrite Ascii.eqb_sym, Hc. rewrite IH by assumption.
    now rewrite append_assoc.
Qed.

Lemma split_acc_last_after_sep (sep : ascii) (pre seg cur : string) :
  mem_ascii sep seg = false ->
  list_last (split_acc sep cur (pre ++ String sep seg)) = Ok seg.
Proof.
  intros Hseg. revert cur.
  induction pre as [| c pre IH]; intros cur; simpl.
  - rewrite Ascii.eqb_refl.
    rewrite list_last_cons by apply split_acc_not_nil.
    now rewrite split_acc_last_no_sep.
  - destruct (Ascii.eqb c sep).
    + rewrite list_last_cons by apply split_acc_not_nil. apply IH.
    + apply IH.
Qed.

(** [host.split(".")[-1]] is the final segment of the address. *)
Lemma split_last_final_segment (host seg : string) :
  final_segment host seg -> list_last (split dot host) = Ok seg.
Proof.
  intros [Hseg [-> | [pre ->]]]; unfold split.
  - now rewrite split_acc_last_no_sep.
  - apply split_acc_last_after_sep. exact Hseg.
Qed.


Lemma str_last_digits (s : string) :
  s <> EmptyString -> all_digits s = true ->
  exists pre c,
    s = (pre ++ String c "")%string /\ is_digit c = true /\ str_last s = Ok c.
Proof.
  induction s as [| c s IH]; intros Hne Hd; [congruence |].
  simpl in Hd. apply andb_true_iff in Hd. destruct Hd as [Hc Hs].
  destruct s as [| d s'].
  - exists EmptyString, c. now repeat split.
  - destruct IH as [pre [c' [E [Hc' Hl]]]]; [discriminate | exact Hs |].
    exists (String c pre), c'. repeat split.
    + simpl. now rewrite <- E.
    + exact Hc'.
    + exact Hl.
Qed.

Lemma str_last_isdigit (s : string) :
  s <> EmptyString -> all_isdigit s = true ->
  exists pre c,
    s = (pre ++ String c "")%string /\ isdigit_char c = true /\
    str_last s = Ok c.
Proof.
  induction s as [| c s IH]; intros Hne Hd; [congruence |].
  simpl in Hd. apply andb_true_iff in Hd. destruct Hd as [Hc Hs].
  destruct s as [| d s'].
  - exists EmptyString, c. now repeat split.
  - destruct IH as [pre [c' [E [Hc' Hl]]]]; [discriminate | exact Hs |].
    exists (String c pre), c'. repeat split.
    + simpl. now rewrite <- E.
    + exact Hc'.
    + exact Hl.
Qed.

Lemma str_last_app (s t : string) :
  t <> EmptyString -> str_last (s ++ t) = str_last t.
Proof.
  intros Ht. induction s as [| c s IH]; [reflexivity |].
  simpl. destruct (s ++ t)%string eqn:E.
  - destruct s, t; simpl in E; congruence.
  - exact IH.
Qed.

Lemma str_last_snoc (pre : string) (c : ascii) :
  str_last (pre ++ String c "") = Ok c.
Proof. now rewrite str_last_app by discriminate. Qed.

(** A segment of decimal digits passes [str.isdigit]. *)
Lemma all_digits_isdigit (s : string) :
  all_digits s = true -> all_isdigit s = true.
Proof.
  induction s as [| c s IH]; simpl; [reflexivity |].
  intros H. apply andb_true_iff in H. destruct H as [Hc Hs].
  unfold isdigit_char. now rewrite Hc, (IH Hs).
Qed.

Lemma isdigit_all (s : string) :
  isdigit s = true -> s <> EmptyString /\ all_isdigit s = true.
Proof.
  destruct s; [discriminate |]. intros H. split; [discriminate | exact H].
Qed.



(** The last character of an address is that of its final segment. *)
Lemma final_segment_last (host seg pre : string) (c : ascii) :
  final_segment host seg ->
  seg = (pre ++ String c "")%string ->
  exists pre', host = (pre' ++ String c "")%string.
Proof.
  intros [_ [-> | [p ->]]] ->.
  - now exists pre.
  - exists (p ++ "." ++ pre)%string. now rewrite !append_assoc.
Qed.

(** Lines 62 to 66.  When the final segment passes [isdigit], the label is
    computed from [int] of the last character of the address, which
    [isdigit] accepts; otherwise it is the vendor and the address. *)
Lemma display_id_rule (manu host seg : string) :
  final_segment host seg ->
  (isdigit seg = true ->
   exists pre c,
     host = (pre ++ String c "")%string /\ isdigit_char c = true /\
     Processor.display_id manu host =
       (n <- int_of_char c ;;
        Ok (manu ++ " " ++ str_of_int (n + 1))%string)) /\
  (isdigit seg = false ->
   Processor.display_id manu host = Ok (manu ++ " " ++ host)%string).
Proof.
  intros Hfin. pose proof (split_last_final_segment host seg Hfin) as Hlast.
  unfold Processor.display_id. rewrite Hlast. cbn [rbind].
  split; intros Hiq; rewrite Hiq; [| reflexivity].
  destruct (isdigit_all seg Hiq) as [Hne Hall].
  destruct (str_last_isdigit seg Hne Hall) as [pre [c [E [Hc _]]]].
  destruct (final_segment_last host seg pre c Hfin E) as [pre' E'].
  exists pre', c. split; [exact E' | split; [exact Hc |]].
  replace (str_last host) with (@Ok ascii c)
    by (rewrite E'; symmetry; apply str_last_snoc).
  reflexivity.
Qed.

(** On a final segment of decimal digits the label is the vendor and the
    last digit plus one. *)
Lemma display_id_decimal (manu host seg : string) :
  final_segment host seg ->
  seg <> EmptyString -> all_digits seg = true ->
  exists pre c,
    host = (pre ++ String c "")%string /\ is_digit c = true /\
    Processor.display_id manu host =
      Ok (manu ++ " " ++ str_of_int (digit_value c + 1))%string.
Proof.
  intros Hfin Hne Hd.
  destruct (str_last_digits seg Hne Hd) as [pre [c [E [Hc _]]]].
  destruct (final_segment_last host seg pre c Hfin E) as [pre' E'].
  exists pre', c. split; [exact E' | split; [exact Hc |]].
  assert (Hiq : isdigit seg = true).
  { unfold isdigit. destruct seg; [congruence | now apply all_digits_isdigit]. }
  destruct (proj1 (display_id_rule manu host seg Hfin) Hiq)
    as [q [c' [F [_ R]]]].
  assert (Hcc : c' = c).
  { assert (H : str_last host = Ok c') by (rewrite F; apply str_last_snoc).
    rewrite E', str_last_snoc in H. now inversion H. }
  subst c'. rewrite R. unfold int_of_char. rewrite Hc. reflexivity.
Qed.




(** ** Vendor detection *)

(** After a 2xx answer to the Megapixel probe, construction goes to the
    label with no other request. *)
Lemma init_megapixel (net : nat -> request -> res response) (host : string)
  (w : world) (r1 : response) :
  net (List.length (issued w)) (megapixel_probe host) = Ok r1 ->
  success (status_code r1) = true ->
  Processor.__init__ net host w =
    match Processor.display_id "Megapixel" host with
    | Ok id =>
        (Ok (Processor.mk (MEGAPIXEL_URL host) host "Megapixel" id []),
         mkWorld (issued w ++ [megapixel_probe host]) (ticks w)
                 (logged w ++ [(LOG, INFO, Initialized id)]))
    | Raise e =>
        (Raise e,
         mkWorld (issued w ++ [megapixel_probe host]) (ticks w) (logged w))
    end.
Proof.
  intros H1 Hs. run_init. unfold megapixel_probe in H1. rewrite H1, Hs.
  cbn [negb fst snd].
  destruct (Processor.display_id "Megapixel" host); reflexivity.
Qed.

Lemma init_first_probe_raises (net : nat -> request -> res response)
  (host : string) (w : world) (e : exn) :
  net (List.length (issued w)) (megapixel_probe host) = Raise e ->
  Processor.__init__ net host w =
    (Raise e,
     mkWorld (issued w ++ [megapixel_probe host]) (ticks w) (logged w)).
Proof.
  intros H1. run_init. unfold megapixel_probe in H1. rewrite H1. reflexivity.
Qed.

Lemma length_snoc {A : Type} (l : list A) (x : A) :
  List.length (l ++ [x]) = S (List.length l).
Proof. rewrite length_app. simpl. lia. Qed.

(** After another status, and an answer to the Brompton probe that
    [raise_for_status] lets through, construction goes to the label. *)
Lemma init_brompton (net : nat -> request -> res response) (host : string)
  (w : world) (r1 r2 : response) :
  net (List.length (issued w)) (megapixel_probe host) = Ok r1 ->
  success (status_code r1) = false ->
  net (S (List.length (issued w))) (brompton_probe host) = Ok r2 ->
  raise_for_status r2 = Ok tt ->
  Processor.__init__ net host w =
    match Processor.display_id "Brompton" host with
    | Ok id =>
        (Ok (Processor.mk (BROMPTON_URL host) host "Brompton" id []),
         mkWorld ((issued w ++ [megapixel_probe host]) ++ [brompton_probe host])
                 (ticks w)
                 ((logged w ++
                   [(LOG, DEBUG, FailedMegapixelCheck (status_code r1))]) ++
                  [(LOG, INFO, Initialized id)]))
    | Raise e =>
        (Raise e,
         mkWorld ((issued w ++ [megapixel_probe host]) ++ [brompton_probe host])
                 (ticks w)
                 (logged w ++
                  [(LOG, DEBUG, FailedMegapixelCheck (status_code r1))]))
    end.
Proof.
  intros H1 Hs H2 Hr.
  run_init. unfold megapixel_probe in H1. rewrite H1, Hs.
  cbn [negb issued ticks logged]. rewrite length_snoc.
  unfold brompton_probe in H2. rewrite H2, Hr.
  cbn [fst snd].
  destruct (Processor.display_id "Brompton" host); reflexivity.
Qed.

Lemma init_brompton_fails (net : nat -> request -> res response)
  (host : string) (w : world) (r1 : response) (e : exn) :
  net (List.length (issued w)) (megapixel_probe host) = Ok r1 ->
  success (status_code r1) = false ->
  (net (S (List.length (issued w))) (brompton_probe host) = Raise e \/
   exists r2,
     net (S (List.length (issued w))) (brompton_probe host) = Ok r2 /\
     raise_for_status r2 = Raise e) ->
  Processor.__init__ net host w =
    (Raise e,
     mkWorld ((issued w ++ [megapixel_probe host]) ++ [brompton_probe host])
             (ticks w)
             (logged w ++
              [(LOG, DEBUG, FailedMegapixelCheck (status_code r1))])).
Proof.
  intros H1 Hs H2.
  run_init. unfold megapixel_probe in H1. rewrite H1, Hs.
  cbn [negb issued ticks logged]. rewrite length_snoc.
  unfold brompton_probe in H2.
  destruct H2 as [H2 | [r2 [H2 Hr]]]; rewrite H2; [reflexivity |].
  rewrite Hr. reflexivity.
Qed.




(** What a constructed processor looks like. *)
Lemma init_inv (net : nat -> request -> res response) (host : string)
  (w w' : world) (p : Processor.t) :
  Processor.__init__ net host w = (Ok p, w') ->
  Processor.host p = host /\
  Processor.data p = [] /\
  (Processor.manu p = "Megapixel"%string \/
   Processor.manu p = "Brompton"%string) /\
  Processor.display_id (Processor.manu p) host = Ok (Processor.id p).
Proof.
  intros H.
  destruct (net (List.length (issued w)) (megapixel_probe host))
    as [r1 | e] eqn:H1.
  - destruct (success (status_code r1)) eqn:Hs.
    + rewrite (init_megapixel net host w r1 H1 Hs) in H.
      destruct (Processor.display_id "Megapixel" host) as [id | e] eqn:Hid;
        [| discriminate].
      inversion H; subst. simpl. auto.
    + destruct (net (S (List.length (issued w))) (brompton_probe host))
        as [r2 | e] eqn:H2.
      * destruct (raise_for_status r2) as [[] | e] eqn:Hr.
        -- rewrite (init_brompton net host w r1 r2 H1 Hs H2 Hr) in H.
           destruct (Processor.display_id "Brompton" host) as [id | e] eqn:Hid;
             [| discriminate].
           inversion H; subst. simpl. auto.
        -- rewrite (init_brompton_fails net host w r1 e H1 Hs) in H;
             [discriminate | right; eauto].
      * rewrite (init_brompton_fails net host w r1 e H1 Hs) in H;
          [discriminate | left; exact H2].
  - rewrite (init_first_probe_raises net host w e H1) in H. discriminate.
Qed.







(** ** The history of a processor *)

Lemma sample_appends (net : nat -> request -> res response) (clock : nat -> Q)
  (self : Processor.t) (w : world) (r : response) (j : json) :
  net (List.length (issued w)) (mkRequest (Processor.url self) []) = Ok r ->
  success (status_code r) = true ->
  body r = Some j ->
  exists w',
    Processor.sample net clock self w =
      (Ok (Processor.set_data self
             (slice_from (- Processor.max_samples)
                (Processor.data self ++ [(clock (ticks w), j)]))), w').
Proof.
  intros H Hs Hb. eexists. run_sample. rewrite H, Hs.
  unfold response_json. rewrite Hb. reflexivity.
Qed.

Lemma sample_other_status (net : nat -> request -> res response)
  (clock : nat -> Q) (self : Processor.t) (w : world) (r : response) :
  net (List.length (issued w)) (mkRequest (Processor.url self) []) = Ok r ->
  success (status_code r) = false ->
  exists w',
    Processor.sample net clock self w =
      (Ok (Processor.set_data self
             (slice_from (- Processor.max_samples) (Processor.data self))), w').
Proof.
  intros H Hs. eexists. run_sample. rewrite H, Hs. reflexivity.
Qed.

(** [l[-3:]] keeps the last three elements. *)
Lemma slice_last3 {A : Type} (l : list A) :
  slice_from (- Processor.max_samples) l = skipn (List.length l - 3) l.
Proof. apply (slice_from_neg 3 l). lia. Qed.

Lemma last3_short {A : Type} (l : list A) :
  (List.length l <= 3)%nat -> skipn (List.length l - 3) l = l.
Proof.
  intros H. replace (List.length l - 3)%nat with 0%nat by lia. reflexivity.
Qed.

Lemma last3_length {A : Type} (l : list A) :
  (List.length (skipn (List.length l - 3) l) <= 3)%nat.
Proof. rewrite length_skipn. lia. Qed.

Lemma last3_app {A : Type} (l m : list A) :
  let l3 := skipn (List.length l - 3) l in
  skipn (List.length (l3 ++ m) - 3) (l3 ++ m) =
  skipn (List.length (l ++ m) - 3) (l ++ m).
Proof.
  cbv zeta.
  destruct (Nat.le_gt_cases (List.length l) 3) as [Hle | Hgt].
  - now rewrite (last3_short l Hle).
  - rewrite !length_app, length_skipn, !skipn_app, skipn_skipn, length_skipn.
    f_equal; f_equal; lia.
Qed.

(** The window after a run of [sample()]: the last three of what the
    processor held followed by what the run appended. *)
Lemma sampled_window (net : nat -> request -> res response) (clock : nat -> Q)
  (p p' : Processor.t) (ss : list (Q * json)) :
  sampled net clock p ss p' ->
  (List.length (Processor.data p) <= 3)%nat ->
  Processor.data p' =
    skipn (List.length (Processor.data p ++ ss) - 3) (Processor.data p ++ ss).
Proof.
  induction 1 as [p | p p1 p2 w w1 r j ss Hnet Hs Hb Hsample _ IH
                 | p p1 p2 w w1 ss Hfail Hsample _ IH
                 | p p2 w w1 e ss _ _ IH]; intros Hlen.
  - rewrite app_nil_r. now rewrite last3_short.
  - destruct (sample_appends net clock p w r j Hnet Hs Hb) as [w' E].
    rewrite E in Hsample. inversion Hsample; subst p1 w1. clear Hsample.
    cbn [Processor.set_data Processor.data] in IH.
    rewrite slice_last3 in IH.
    rewrite IH by apply last3_length.
    rewrite (last3_app (Processor.data p ++ [(clock (ticks w), j)]) ss).
    now rewrite <- app_assoc.
  - assert (Hdata : Processor.data p1 = Processor.data p).
    { destruct Hfail as [Hnet | [r [Hnet Hs]]].
      - rewrite (sample_on_connection_error net clock p w Hnet) in Hsample.
        now inversion Hsample.
      - destruct (sample_other_status net clock p w r Hnet Hs) as [w' E].
        rewrite E in Hsample. inversion Hsample; subst p1 w1.
        cbn [Processor.set_data Processor.data].
        rewrite slice_last3. now apply last3_short. }
    rewrite Hdata in IH. apply IH. exact Hlen.
  - apply IH. exact Hlen.
Qed.

(** C6.  The history of a constructed processor after any run of
    [sample()] holds at most three samples: the last three that the run
    appended, in the order they were appended.  After five appended samples
    these are the third, the fourth and the fifth. *)
Theorem history_window :
  forall (net : nat -> request -> res response) (clock : nat -> Q)
         (host : string) (w0 w1 : world) (p0 p : Processor.t)
         (ss : list (Q * json)),
    Processor.__init__ net host w0 = (Ok p0, w1) ->
    sampled net clock p0 ss p ->
    (List.length (Processor.data p) <= 3)%nat /\
    Processor.data p = skipn (List.length ss - 3) ss /\
    forall s1 s2 s3 s4 s5,
      ss = [s1; s2; s3; s4; s5] -> Processor.data p = [s3; s4; s5].
Proof.
  intros net clock host w0 w1 p0 p ss Hinit Hrun.
  destruct (init_inv net host w0 w1 p0 Hinit) as [_ [Hdata _]].
  pose proof (sampled_window net clock p0 p ss Hrun) as Hw.
  rewrite Hdata in Hw. cbn [app List.length] in Hw.
  specialize (Hw ltac:(lia)).
  repeat split.
  - rewrite Hw. apply last3_length.
  - exact Hw.
  - intros s1 s2 s3 s4 s5 ->. rewrite Hw. reflexivity.
Qed.


Lemma history_window_witness :
  (List.length [sample_at 2; sample_at 3; sample_at 4] <= 3)%nat /\
  [sample_at 2; sample_at 3; sample_at 4] =
    skipn (List.length [sample_at 0; sample_at 1; sample_at 2;
                        sample_at 3; sample_at 4] - 3)
      [sample_at 0; sample_at 1; sample_at 2; sample_at 3; sample_at 4] /\
  forall s1 s2 s3 s4 s5,
    [sample_at 0; sample_at 1; sample_at 2; sample_at 3; sample_at 4]
      = [s1; s2; s3; s4; s5] ->
    [sample_at 2; sample_at 3; sample_at 4] = [s3; s4; s5].
Proof.
  apply (history_window net_ok clock_nat "h"%string world0
           (mkWorld [megapixel_probe "h"] 0
                    [(LOG, INFO, Initialized "Megapixel h")])
           processor_h
           (Processor.set_data processor_h
              [sample_at 2; sample_at 3; sample_at 4])
           [sample_at 0; sample_at 1; sample_at 2; sample_at 3; sample_at 4]).
  - reflexivity.
  - eapply (sampled_append net_ok clock_nat processor_h
             (Processor.set_data processor_h [sample_at 0]) _
             (mkWorld [] 0 []) _ (mkResponse 200 (Some (snd (sample_at 0))))
             (snd (sample_at 0)));
      try reflexivity.
    eapply (sampled_append net_ok clock_nat _
             (Processor.set_data processor_h [sample_at 0; sample_at 1]) _
             (mkWorld [] 1 []) _ (mkResponse 200 (Some (snd (sample_at 0))))
             (snd (sample_at 0)));
      try reflexivity.
    eapply (sampled_append net_ok clock_nat _
             (Processor.set_data processor_h
                [sample_at 0; sample_at 1; sample_at 2]) _
             (mkWorld [] 2 []) _ (mkResponse 200 (Some (snd (sample_at 0))))
             (snd (sample_at 0)));
      try reflexivity.
    eapply (sampled_append net_ok clock_nat _
             (Processor.set_data processor_h
                [sample_at 1; sample_at 2; sample_at 3]) _
             (mkWorld [] 3 []) _ (mkResponse 200 (Some (snd (sample_at 0))))
             (snd (sample_at 0)));
      try reflexivity.
    eapply (sampled_append net_ok clock_nat _
             (Processor.set_data processor_h
                [sample_at 2; sample_at 3; sample_at 4]) _
             (mkWorld [] 4 []) _ (mkResponse 200 (Some (snd (sample_at 0))))
             (snd (sample_at 0)));
      try reflexivity.
    apply sampled_none.
Defined.

(** ** The VETO patterns on paths *)

Lemma lit_run_app (l s : string) : lit_run l (l ++ s) = Some s.
Proof.
  induction l as [| c l IH]; simpl; [reflexivity |].
  now rewrite Ascii.eqb_refl.
Qed.

Lemma re_run_seq (r1 r2 : regex) (b : bool) (s : string)
  (k : bool -> string -> bool) :
  re_run (RSeq r1 r2) b s k =
  re_run r1 b s (fun b' s' => re_run r2 b' s' k).
Proof. reflexivity. Qed.

Lemma re_run_lit (l s : string) (b : bool) (k : bool -> string -> bool) :
  (forall b', k b' s = true) -> re_run (RLit l) b (l ++ s) k = true.
Proof. intros Hk. simpl. rewrite lit_run_app. apply Hk. Qed.

Lemma star_run_app (cl : cclass) (pre s : string) (k : string -> bool) :
  (forall c, mem_ascii c pre = true -> cclass_match cl c = true) ->
  k s = true ->
  star_run cl (pre ++ s) k = true.
Proof.
  intros Hpre Hk. induction pre as [| c pre IH]; simpl.
  - destruct s; simpl; now rewrite Hk.
  - rewrite Hpre by (simpl; now rewrite Ascii.eqb_refl).
    rewrite IH; [apply orb_true_r |].
    intros d Hd. apply Hpre. simpl. rewrite Hd. apply orb_true_r.
Qed.

Lemma re_run_star (cl : cclass) (pre s : string) (b : bool)
  (k : bool -> string -> bool) :
  (forall c, mem_ascii c pre = true -> cclass_match cl c = true) ->
  (forall b', k b' s = true) ->
  re_run (RStar cl) b (pre ++ s) k = true.
Proof.
  intros Hpre Hk. destruct pre as [| c pre]; simpl.
  - now rewrite Hk.
  - rewrite Hpre by (simpl; now rewrite Ascii.eqb_refl).
    rewrite star_run_app; [apply orb_true_r | | apply Hk].
    intros d Hd. apply Hpre. simpl. rewrite Hd. apply orb_true_r.
Qed.

Lemma re_run_plus (cl : cclass) (pre s : string) (b : bool)
  (k : bool -> string -> bool) :
  pre <> EmptyString ->
  (forall c, mem_ascii c pre = true -> cclass_match cl c = true) ->
  k false s = true ->
  re_run (RPlus cl) b (pre ++ s) k = true.
Proof.
  intros Hne Hpre Hk. destruct pre as [| c pre]; [congruence |]. simpl.
  rewrite Hpre by (simpl; now rewrite Ascii.eqb_refl).
  rewrite star_run_app; [reflexivity | | exact Hk].
  intros d Hd. apply Hpre. simpl. rewrite Hd. apply orb_true_r.
Qed.

Lemma re_run_alt_lits (ws : list string) (w s : string) (b : bool)
  (k : bool -> string -> bool) :
  In w ws ->
  (forall b', k b' s = true) ->
  re_run (alt_lits ws) b (w ++ s) k = true.
Proof.
  intros Hin Hk. induction ws as [| w1 ws IH]; [contradiction |].
  destruct ws as [| w2 ws].
  - destruct Hin as [-> | []]. now apply re_run_lit.
  - change (alt_lits (w1 :: w2 :: ws))
      with (RAlt (RLit w1) (alt_lits (w2 :: ws))).
    cbn [re_run]. destruct Hin as [-> | Hin].
    + rewrite lit_run_app, Hk. reflexivity.
    + rewrite (IH Hin). apply orb_true_r.
Qed.

Lemma mem_ascii_false (c : ascii) (s : string) :
  mem_ascii c s = false ->
  forall d, mem_ascii d s = true -> Ascii.eqb d c = false.
Proof.
  intros H d Hd. destruct (Ascii.eqb d c) eqn:E; [| reflexivity].
  apply Ascii.eqb_eq in E. subst d. congruence.
Qed.



(** ** dict_compare: what is reported, and why *)

Lemma dict_get_none (k : string) (d : list (string * json)) :
  dict_get k d = None <-> ~ In k (map fst d).
Proof.
  induction d as [| [k' v] d IH]; simpl.
  - tauto.
  - destruct (String.eqb k k') eqn:E.
    + apply String.eqb_eq in E. subst. split; [discriminate | tauto].
    + apply String.eqb_neq in E. rewrite IH. split.
      * intros H [H' | H']; [congruence | tauto].
      * tauto.
Qed.

Lemma dict_has_false (k : string) (d : list (string * json)) :
  dict_has k d = false <-> ~ In k (map fst d).
Proof.
  rewrite <- dict_get_none. unfold dict_has.
  destruct (dict_get k d); split; congruence.
Qed.

Lemma dict_has_get (k : string) (d : list (string * json)) (w : json) :
  dict_get k d = Some w -> dict_has k d = true.
Proof. unfold dict_has. now intros ->. Qed.

Lemma compared_trans (a b : json) (path : list string)
  (a1 b1 : json) (path1 : list string) (a2 b2 : json) (path2 : list string) :
  compared a b path a1 b1 path1 ->
  compared a1 b1 path1 a2 b2 path2 ->
  compared a b path a2 b2 path2.
Proof.
  intros H1 H2. induction H2 as [| da db path' k dv w _ IH Hin Hget].
  - exact H1.
  - eapply compared_child; eauto.
Qed.

(** One turn of the loop of [dict_compare] that did not raise: what it
    appended to [result], by the branch taken. *)
Lemma items_loop_step
  (cmp : json -> json -> list string -> res (list string))
  (db : list (string * json)) (path : list string) (k : string) (v : json)
  (rest : list (string * json)) (result out : list string) :
  items_loop cmp (JDict db) path ((k, v) :: rest) result = Ok out ->
  exists extra,
    items_loop cmp (JDict db) path rest (result ++ extra) = Ok out /\
    ((dict_has k db = false /\ extra = [join "." (path ++ [k])]) \/
     (exists dv w,
        v = JDict dv /\ dict_get k db = Some w /\
        cmp v w (path ++ [k]) = Ok extra) \/
     (exists l, v = JList l /\ dict_has k db = true /\ extra = []) \/
     (exists x,
        v = JScalar x /\ dict_has k db = true /\
        (extra = [] \/
         (extra = [join "." (path ++ [k])] /\
          veto (join "." (path ++ [k])) = false /\
          exists w, dict_get k db = Some w /\ py_eq x w = false)))).
Proof.
  intros H. cbn [items_loop] in H. cbv zeta in H. cbn [py_in rbind] in H.
  destruct (dict_has k db) eqn:Hhas; cbn [negb] in H.
  - destruct v as [x | l | dv].
    + destruct (veto (join "." (path ++ [k]))) eqn:Hv.
      * exists []. rewrite app_nil_r. split; [exact H |].
        right; right; right. exists x. auto.
      * cbn [py_getitem] in H.
        destruct (dict_get k db) as [w |] eqn:Hg;
          cbn [rbind] in H; [| discriminate].
        destruct (py_eq x w) eqn:He; cbn [negb] in H.
        -- exists []. rewrite app_nil_r. split; [exact H |].
           right; right; right. exists x. auto.
        -- exists [join "." (path ++ [k])]. split; [exact H |].
           right; right; right. exists x. repeat split; auto.
           right. repeat split; auto. exists w. auto.
    + exists []. rewrite app_nil_r. split.
      * destruct (veto (join "." (path ++ [k]))); [exact H |].
        destruct (list_test (JList l) (JDict db) k) as [[|] | e];
          cbn [rbind] in H; try discriminate. exact H.
      * right; right; left. exists l. auto.
    + cbn [py_getitem] in H.
      destruct (dict_get k db) as [w |] eqn:Hg;
        cbn [rbind] in H; [| discriminate].
      destruct (cmp (JDict dv) w (path ++ [k])) as [sub | e] eqn:Hc;
        cbn [rbind] in H; [| discriminate].
      exists sub. split; [exact H |].
      right; left. exists dv, w. auto.
  - exists [join "." (path ++ [k])]. split; [exact H |]. left. auto.
Qed.

Lemma items_loop_grows
  (cmp : json -> json -> list string -> res (list string))
  (db : list (string * json)) (path : list string)
  (its : list (string * json)) :
  forall result out,
    items_loop cmp (JDict db) path its result = Ok out -> incl result out.
Proof.
  induction its as [| [k v] rest IH]; intros result out H.
  - simpl in H. inversion H. apply incl_refl.
  - destruct (items_loop_step _ _ _ _ _ _ _ _ H) as [extra [Hrest _]].
    apply IH in Hrest. intros p Hp. apply Hrest, in_or_app. now left.
Qed.

Lemma items_loop_removed
  (cmp : json -> json -> list string -> res (list string))
  (db : list (string * json)) (path : list string) (k : string)
  (its : list (string * json)) :
  forall result out,
    items_loop cmp (JDict db) path its result = Ok out ->
    In k (map fst its) ->
    dict_has k db = false ->
    In (join "." (path ++ [k])) out.
Proof.
  induction its as [| [k' v] rest IH]; intros result out H Hin Hhas.
  - contradiction.
  - destruct (items_loop_step _ _ _ _ _ _ _ _ H) as [extra [Hrest Hcase]].
    destruct Hin as [Hk | Hin]; [| now apply (IH _ _ Hrest)].
    simpl in Hk. subst k'.
    apply (items_loop_grows _ _ _ _ _ _ Hrest), in_or_app. right.
    destruct Hcase as [[_ ->] | [[dv [w [_ [Hg _]]]] | [[l [_ [Hh _]]]
                      | [x [_ [Hh _]]]]]].
    + now left.
    + apply dict_has_get in Hg. congruence.
    + congruence.
    + congruence.
Qed.

Lemma items_loop_child
  (cmp : json -> json -> list string -> res (list string))
  (db : list (string * json)) (path : list string) (k : string)
  (dv : list (string * json)) (w : json) (its : list (string * json)) :
  forall result out,
    items_loop cmp (JDict db) path its result = Ok out ->
    In (k, JDict dv) its ->
    dict_get k db = Some w ->
    exists sub, cmp (JDict dv) w (path ++ [k]) = Ok sub /\ incl sub out.
Proof.
  induction its as [| [k' v] rest IH]; intros result out H Hin Hget.
  - contradiction.
  - destruct (items_loop_step _ _ _ _ _ _ _ _ H) as [extra [Hrest Hcase]].
    destruct Hin as [Hk | Hin]; [| now apply (IH _ _ Hrest)].
    inversion Hk; subst k' v. clear Hk.
    destruct Hcase as [[Hh _] | [[dv' [w' [_ [Hg Hc]]]] | [[l [E _]]
                      | [x [E _]]]]]; try discriminate.
    + apply dict_has_get in Hget. congruence.
    + assert (w' = w) by congruence. subst w'.
      exists extra. split; [exact Hc |].
      intros p Hp.
      apply (items_loop_grows _ _ _ _ _ _ Hrest), in_or_app. now right.
Qed.

Lemma origin_child (items db dv : list (string * json)) (w : json)
  (path : list string) (k p : string) :
  In (k, JDict dv) items ->
  dict_get k db = Some w ->
  origin (JDict dv) w (path ++ [k]) p ->
  origin (JDict items) (JDict db) path p.
Proof.
  intros Hin Hget [da' [db' [path' [k' [Hcmp Hrest]]]]].
  exists da', db', path', k'. split; [| exact Hrest].
  eapply compared_trans; [| exact Hcmp].
  eapply compared_child; [apply compared_root | exact Hin | exact Hget].
Qed.

Lemma items_loop_origin {order : set_order} (items db : list (string * json))
  (path : list string) (its : list (string * json)) :
  (forall k v, In (k, v) its ->
     forall b path' res, dict_compare order v b path' = Ok res ->
     forall p, In p res -> origin v b path' p) ->
  incl its items ->
  forall result out,
    items_loop (dict_compare order) (JDict db) path its result = Ok out ->
    forall p, In p out ->
      In p result \/ origin (JDict items) (JDict db) path p.
Proof.
  induction its as [| [k v] rest IH]; intros Hrec Hincl result out H p Hp.
  - simpl in H. inversion H; subst. now left.
  - destruct (items_loop_step _ _ _ _ _ _ _ _ H) as [extra [Hrest Hcase]].
    assert (Hkv : In (k, v) items) by (apply Hincl; now left).
    assert (Hkey : In k (map fst items))
      by (apply in_map_iff; now exists (k, v)).
    destruct (IH (fun k0 v0 Hin => Hrec k0 v0 (or_intror Hin))
                 (fun kv Hin => Hincl kv (or_intror Hin))
                 _ _ Hrest p Hp) as [Hres | Horigin]; [| now right].
    apply in_app_or in Hres. destruct Hres as [Hres | Hextra]; [now left |].
    right.
    destruct Hcase as [[Hh ->] | [[dv [w [-> [Hg Hc]]]] | [[l [_ [_ ->]]]
                      | [x [-> [Hh [-> | [-> [Hv [w [Hg He]]]]]]]]]]].
    + destruct Hextra as [<- | []].
      exists items, db, path, k. split; [apply compared_root |].
      split; [reflexivity |]. left. split; [exact Hkey |].
      now apply dict_has_false.
    + apply (origin_child items db dv w path k p Hkv Hg).
      apply (Hrec k (JDict dv) (or_introl eq_refl) w (path ++ [k]) extra Hc).
      exact Hextra.
    + contradiction.
    + contradiction.
    + destruct Hextra as [<- | []].
      exists items, db, path, k. split; [apply compared_root |].
      split; [reflexivity |]. right; right. split; [exact Hv |].
      exists x, w. auto.
Qed.

(** Every path that [dict_compare] reports has an origin. *)
Lemma reported_origin {order : set_order} (a : json) :
  forall (b : json) (path : list string) (res : list string),
    dict_compare order a b path = Ok res ->
    forall p, In p res -> origin a b path p.
Proof.
  induction a as [x | l | items IH] using json_dict_ind;
    intros b path res H p Hp; try discriminate.
  cbn [dict_compare] in H.
  destruct (items_loop (dict_compare order) b path items [])
    as [r1 | e] eqn:Hloop;
    cbn [rbind] in H; [| discriminate].
  destruct b as [y | m | db]; cbn [py_keys rbind] in H; try discriminate.
  inversion H; subst res. clear H.
  apply in_app_or in Hp. destruct Hp as [Hp | Hp].
  - destruct (items_loop_origin (order := order) items db path items) with
      (result := @nil string) (out := r1) (p := p) as [[] | Ho]; auto.
    + intros k v Hin. rewrite Forall_forall in IH. exact (IH (k, v) Hin).
    + apply incl_refl.
  - apply in_map_iff in Hp. destruct Hp as [k [<- Hk]].
    apply keys_diff_in in Hk. destruct Hk as [Hb Ha].
    exists items, db, path, k. split; [apply compared_root |].
    split; [reflexivity |]. right; left. now split.
Qed.

(** What [dict_compare] returns on a compared pair is part of what it
    returns on the whole. *)
Lemma compared_results {order : set_order} (a b : json) (path : list string)
  (res : list string) (a' b' : json) (path' : list string) :
  dict_compare order a b path = Ok res ->
  compared a b path a' b' path' ->
  exists sub, dict_compare order a' b' path' = Ok sub /\ incl sub res.
Proof.
  intros H Hcmp.
  induction Hcmp as [| da db path' k dv w _ IH Hin Hget].
  - exists res. split; [exact H | apply incl_refl].
  - destruct IH as [sub0 [H0 Hincl0]].
    cbn [dict_compare] in H0.
    destruct (items_loop (dict_compare order) (JDict db) path' da [])
      as [r1 | e] eqn:Hloop; cbn [rbind py_keys] in H0; [| discriminate].
    inversion H0; subst sub0. clear H0.
    destruct (items_loop_child _ _ _ _ _ _ _ _ _ Hloop Hin Hget)
      as [sub [Hsub Hincl]].
    exists sub. split; [exact Hsub |].
    intros p Hp. apply Hincl0, in_or_app. left. now apply Hincl.
Qed.

Lemma one_sided_key_reported {order : set_order} (da db : list (string * json))
  (path : list string) (res : list string) (k : string) :
  dict_compare order (JDict da) (JDict db) path = Ok res ->
  removed_key k da db \/ added_key k da db ->
  In (join "." (path ++ [k])) res.
Proof.
  intros H Hk. cbn [dict_compare] in H.
  destruct (items_loop (dict_compare order) (JDict db) path da [])
    as [r1 | e] eqn:Hloop; cbn [rbind py_keys] in H; [| discriminate].
  inversion H; subst res. clear H. apply in_or_app.
  destruct Hk as [[Ha Hb] | [Ha Hb]].
  - left. apply (items_loop_removed _ _ _ _ _ _ _ Hloop Ha).
    now apply dict_has_false.
  - right. apply in_map_iff. exists k. split; [reflexivity |].
    apply keys_diff_in. now split.
Qed.

(** C4.  A key that one of two compared dicts has and the other has not
    should always be reported, vetoed or not.  The branches of lines 126
    and 138 do so: every result that [dict_compare] returns holds the path
    of every such key, at the top and under nested dicts alike, with
    nothing asked of the path.  But [dict_compare] does not always return:
    with [{"x": [1], "gone": 1}] against [{"x": [1]}] the turn on [x]
    raises [AttributeError] (lines 133 and 134), and the removal of [gone]
    is not reported. *)
Theorem one_sided_keys_reported (order : set_order) :
  (forall (a b : json) (path : list string) (res : list string)
          (da db : list (string * json)) (path' : list string) (k : string),
     dict_compare order a b path = Ok res ->
     compared a b path (JDict da) (JDict db) path' ->
     removed_key k da db \/ added_key k da db ->
     In (join "." (path' ++ [k])) res) /\
  (removed_key "gone" [("x", JList [JInt 1]); ("gone", JInt 1)]%string
               [("x", JList [JInt 1])]%string /\
   veto "x" = false /\
   dict_compare order list_and_gone one_list [] = Raise AttributeError).
Proof.
  split.
  - intros a b path res da db path' k H Hcmp Hk.
    destruct (compared_results a b path res _ _ _ H Hcmp)
      as [sub [Hsub Hincl]].
    apply Hincl. exact (one_sided_key_reported da db path' sub k Hsub Hk).
  - repeat split.
    + right; left. reflexivity.
    + intros [E | []]. discriminate.
Qed.


Lemma one_sided_keys_reported_witness :
  veto "sys.uptime" = true /\
  dict_compare insertion_order sys_uptime sys_empty []
    = Ok ["sys.uptime"%string] /\
  In (join "." (["sys"%string] ++ ["uptime"%string])) ["sys.uptime"%string].
Proof.
  split; [reflexivity |]. split; [reflexivity |].
  apply (proj1 (one_sided_keys_reported insertion_order)
           sys_uptime sys_empty [] ["sys.uptime"%string]
           [("uptime", JInt 5)]%string [] ["sys"%string] "uptime"%string).
  - reflexivity.
  - apply (compared_child sys_uptime sys_empty []
             [("sys", JDict [("uptime", JInt 5)])]%string
             [("sys", JDict [])]%string [] "sys"%string
             [("uptime", JInt 5)]%string (JDict [])).
    + apply compared_root.
    + left. reflexivity.
    + reflexivity.
  - left. split.
    + left. reflexivity.
    + intros [].
Defined.



(** ** dict_compare: the scope of the two defects *)

(** A key that holds a list on the left and exists on the right never adds
    to the result: the turn raises or leaves [result] as it was. *)
Lemma list_value_reports_nothing
  (cmp : json -> json -> list string -> res (list string))
  (db : list (string * json)) (path : list string) (k : string)
  (l : list json) (rest : list (string * json)) (result out : list string) :
  dict_has k db = true ->
  items_loop cmp (JDict db) path ((k, JList l) :: rest) result = Ok out ->
  items_loop cmp (JDict db) path rest result = Ok out.
Proof.
  intros Hhas H.
  destruct (items_loop_step _ _ _ _ _ _ _ _ H) as [extra [Hrest Hcase]].
  destruct Hcase as [[Hh _] | [[dv [w [E _]]] | [[l' [_ [_ ->]]]
                    | [x [E _]]]]]; try discriminate; try congruence.
  now rewrite app_nil_r in Hrest.
Qed.

(** Against anything but a dict, [dict_compare] raises. *)
Lemma dict_compare_against_non_dict {order : set_order} (a b : json)
  (path : list string) :
  (forall d, b <> JDict d) -> exists e, dict_compare order a b path = Raise e.
Proof.
  intros Hb. destruct a as [x | l | items]; try (eexists; reflexivity).
  cbn [dict_compare].
  destruct (items_loop (dict_compare order) b path items []) as [r | e];
    cbn [rbind]; [| eexists; reflexivity].
  destruct b as [y | m | db]; cbn [py_keys rbind];
    try (eexists; reflexivity).
  now destruct (Hb db).
Qed.

(** Every scalar but [NaN] equals itself. *)
Lemma scalar_eq_refl (x : scalar) : x <> SNaN -> scalar_eq x x = true.
Proof.
  intros Hx. destruct x as [| b | q | n | | s]; simpl.
  - reflexivity.
  - apply Bool.eqb_reflx.
  - apply Qeq_bool_refl.
  - apply Bool.eqb_reflx.
  - congruence.
  - apply String.eqb_refl.
Qed.

Lemma dict_get_in (d : list (string * json)) (k : string) (v : json) :
  NoDup (map fst d) -> In (k, v) d -> dict_get k d = Some v.
Proof.
  induction d as [| [k' v'] d IH]; intros Hnd Hin; [contradiction |].
  simpl in Hnd. inversion Hnd as [| ? ? Hnotin Hnd']; subst.
  simpl. destruct Hin as [E | Hin].
  - inversion E; subst. now rewrite String.eqb_refl.
  - destruct (String.eqb k k') eqn:Ek.
    + apply String.eqb_eq in Ek. subst k'. exfalso. apply Hnotin.
      apply in_map_iff. now exists (k, v).
    + now apply IH.
Qed.

Lemma items_loop_same {order : set_order} (items : list (string * json))
  (path : list string) (its : list (string * json)) :
  NoDup (map fst items) ->
  incl its items ->
  (forall k v, In (k, v) its -> plain v) ->
  (forall k v, In (k, v) its ->
     forall d, v = JDict d ->
     forall path', dict_compare order v v path' = Ok []) ->
  forall result,
    items_loop (dict_compare order) (JDict items) path its result = Ok result.
Proof.
  intros Hnd. induction its as [| [k v] rest IH];
    intros Hincl Hplain Hrec result; [reflexivity |].
  assert (Hget : dict_get k items = Some v).
  { apply dict_get_in; [exact Hnd | apply Hincl; now left]. }
  assert (Hrest : forall result',
             items_loop (dict_compare order) (JDict items) path rest result'
               = Ok result').
  { apply IH.
    - intros kv Hin. apply Hincl. now right.
    - intros k0 v0 Hin. apply (Hplain k0 v0). now right.
    - intros k0 v0 Hin. apply (Hrec k0 v0). now right. }
  cbn [items_loop]. cbv zeta. cbn [py_in rbind].
  rewrite (dict_has_get _ _ _ Hget). cbn [negb].
  pose proof (Hplain k v (or_introl eq_refl)) as Hv.
  destruct v as [x | l | dv].
  - destruct (veto (join "." (path ++ [k]))); [apply Hrest |].
    cbn [py_getitem]. rewrite Hget. cbn [rbind py_eq].
    rewrite scalar_eq_refl by (now inversion Hv). cbn [negb]. apply Hrest.
  - inversion Hv.
  - cbn [py_getitem]. rewrite Hget. cbn [rbind].
    rewrite (Hrec k (JDict dv) (or_introl eq_refl) dv eq_refl).
    cbn [rbind]. rewrite app_nil_r. apply Hrest.
Qed.

(** Without lists and without [NaN], a snapshot compared with itself
    reports nothing. *)
Lemma dict_compare_same_plain {order : set_order} (a : json) :
  plain a ->
  forall d, a = JDict d ->
  forall path, dict_compare order a a path = Ok [].
Proof.
  induction a as [x | l | items IH] using json_dict_ind;
    intros Hplain d E path; try discriminate.
  inversion Hplain as [| d' Hnd Hvals]; subst d'.
  cbn [dict_compare].
  rewrite (items_loop_same items path items Hnd (incl_refl _) Hvals).
  - cbn [rbind py_keys]. now rewrite keys_diff_same.
  - intros k v Hin d0 Ev path'. rewrite Forall_forall in IH.
    apply (IH (k, v) Hin (Hvals k v Hin) d0 Ev).
Qed.


(* ================================================================= *)
(** * Further properties *)

(** ** dict_compare: the result, and the errors *)

Lemma items_loop_changed
  (cmp : json -> json -> list string -> res (list string))
  (db : list (string * json)) (path : list string) (k : string)
  (x : scalar) (w : json) (its : list (string * json)) :
  forall result out,
    items_loop cmp (JDict db) path its result = Ok out ->
    In (k, JScalar x) its ->
    dict_get k db = Some w ->
    py_eq x w = false ->
    veto (join "." (path ++ [k])) = false ->
    In (join "." (path ++ [k])) out.
Proof.
  induction its as [| [k' v] rest IH]; intros result out H Hin Hget He Hv.
  - contradiction.
  - destruct Hin as [Hk | Hin].
    + inversion Hk; subst k' v. clear Hk.
      cbn [items_loop] in H. cbv zeta in H. cbn [py_in rbind] in H.
      rewrite (dict_has_get _ _ _ Hget) in H. cbn [negb] in H.
      rewrite Hv in H. cbn [py_getitem] in H. rewrite Hget in H.
      cbn [rbind] in H. rewrite He in H. cbn [negb] in H.
      apply (items_loop_grows _ _ _ _ _ _ H), in_or_app. right. now left.
    + destruct (items_loop_step _ _ _ _ _ _ _ _ H) as [extra [Hrest _]].
      now apply (IH _ _ Hrest).
Qed.

Lemma changed_leaf_reported {order : set_order} (da db : list (string * json))
  (path : list string) (res : list string) (k : string) :
  dict_compare order (JDict da) (JDict db) path = Ok res ->
  changed_leaf k (join "." (path ++ [k])) da db ->
  In (join "." (path ++ [k])) res.
Proof.
  intros H [Hv [x [w [Hin [Hget He]]]]]. cbn [dict_compare] in H.
  destruct (items_loop (dict_compare order) (JDict db) path da [])
    as [r1 | e] eqn:Hloop; cbn [rbind py_keys] in H; [| discriminate].
  inversion H; subst res. clear H. apply in_or_app. left.
  exact (items_loop_changed _ _ _ _ _ _ _ _ _ Hloop Hin Hget He Hv).
Qed.

(** X1.  What [dict_compare] returns, as a set: a path is in the result
    exactly when it is the path of a key of a compared pair of dicts that
    was removed, was added, or holds a scalar on the left, another value
    on the right and is not vetoed. *)
Theorem reported_iff_origin (order : set_order) :
  forall (a b : json) (path : list string) (res : list string),
    dict_compare order a b path = Ok res ->
    forall p, In p res <-> origin a b path p.
Proof.
  intros a b path res H p. split.
  - apply (reported_origin a b path res H).
  - intros [da [db [path' [k [Hcmp [-> Hwhy]]]]]].
    destruct (compared_results a b path res _ _ _ H Hcmp)
      as [sub [Hsub Hincl]].
    apply Hincl. destruct Hwhy as [Hr | [Ha | Hc]].
    + apply (one_sided_key_reported da db path' sub k Hsub). now left.
    + apply (one_sided_key_reported da db path' sub k Hsub). now right.
    + exact (changed_leaf_reported da db path' sub k Hsub Hc).
Qed.

Lemma reported_iff_origin_witness :
  In "temps.fan1"%string ["temps.fan1"%string] <->
  origin temps_30 temps_45 [] "temps.fan1".
Proof.
  apply (reported_iff_origin insertion_order temps_30 temps_45 []
           ["temps.fan1"%string]).
  reflexivity.
Defined.

(** A list in the way stops the loop, at its turn or before. *)
Lemma items_loop_list_trouble
  (cmp : json -> json -> list string -> res (list string))
  (db : list (string * json)) (path : list string) (k : string)
  (l : list json) (its : list (string * json)) :
  In (k, JList l) its ->
  dict_has k db = true ->
  veto (join "." (path ++ [k])) = false ->
  list_test (JList l) (JDict db) k <> Ok false ->
  forall result, exists e,
    items_loop cmp (JDict db) path its result = Raise e.
Proof.
  intros Hin Hhas Hv Htest.
  induction its as [| [k' v] rest IH]; intros result; [contradiction |].
  destruct (items_loop cmp (JDict db) path ((k', v) :: rest) result)
    as [out | e] eqn:H; [| now exists e].
  exfalso. destruct Hin as [Hk | Hin].
  - inversion Hk; subst k' v. clear Hk.
    cbn [items_loop] in H. cbv zeta in H. cbn [py_in rbind] in H.
    rewrite Hhas in H. cbn [negb] in H. rewrite Hv in H.
    destruct (list_test (JList l) (JDict db) k) as [[|] | e];
      cbn [rbind] in H; try discriminate. now apply Htest.
  - destruct (items_loop_step _ _ _ _ _ _ _ _ H) as [extra [Hrest _]].
    destruct (IH Hin (result ++ extra)) as [e He]. congruence.
Qed.

(** A loop that raises met a list in the way, or a dict whose comparison
    raised. *)
Lemma items_loop_raises
  (cmp : json -> json -> list string -> res (list string))
  (db : list (string * json)) (path : list string)
  (its : list (string * json)) :
  forall result e,
    items_loop cmp (JDict db) path its result = Raise e ->
    (exists k l,
       In (k, JList l) its /\ dict_has k db = true /\
       veto (join "." (path ++ [k])) = false /\
       list_test (JList l) (JDict db) k <> Ok false) \/
    (exists k dv w e',
       In (k, JDict dv) its /\ dict_get k db = Some w /\
       cmp (JDict dv) w (path ++ [k]) = Raise e').
Proof.
  induction its as [| [k v] rest IH]; intros result e H; [discriminate |].
  assert (Hlater : forall result',
            items_loop cmp (JDict db) path rest result' = Raise e ->
            (exists k0 l,
               In (k0, JList l) ((k, v) :: rest) /\ dict_has k0 db = true /\
               veto (join "." (path ++ [k0])) = false /\
               list_test (JList l) (JDict db) k0 <> Ok false) \/
            (exists k0 dv w e',
               In (k0, JDict dv) ((k, v) :: rest) /\
               dict_get k0 db = Some w /\
               cmp (JDict dv) w (path ++ [k0]) = Raise e')).
  { intros result' H'. destruct (IH _ _ H') as [[k0 [l [Hin Hr]]]
                                           | [k0 [dv [w [e' [Hin Hr]]]]]].
    - left. exists k0, l. split; [now right | exact Hr].
    - right. exists k0, dv, w, e'. split; [now right | exact Hr]. }
  cbn [items_loop] in H. cbv zeta in H. cbn [py_in rbind] in H.
  destruct (dict_has k db) eqn:Hhas; cbn [negb] in H; [| eauto].
  destruct v as [x | l | dv].
  - destruct (veto (join "." (path ++ [k]))); [eauto |].
    cbn [py_getitem] in H. unfold dict_has in Hhas.
    destruct (dict_get k db) as [w |]; [| discriminate].
    cbn [rbind] in H. destruct (negb (py_eq x w)); eauto.
  - destruct (veto (join "." (path ++ [k]))) eqn:Hv; [eauto |].
    destruct (list_test (JList l) (JDict db) k) as [[|] | e0] eqn:Ht;
      cbn [rbind] in H.
    + left. exists k, l. repeat split; auto; [now left | congruence].
    + eauto.
    + left. exists k, l. repeat split; auto; [now left | congruence].
  - cbn [py_getitem] in H. unfold dict_has in Hhas.
    destruct (dict_get k db) as [w |] eqn:Hg; [| discriminate].
    cbn [rbind] in H.
    destruct (cmp (JDict dv) w (path ++ [k])) as [sub | e0] eqn:Hc;
      cbn [rbind] in H; [eauto |].
    right. exists k, dv, w, e0. repeat split; auto. now left.
Qed.

Lemma trouble_child (items db dv : list (string * json)) (w : json)
  (path : list string) (k : string) :
  In (k, JDict dv) items ->
  dict_get k db = Some w ->
  trouble (JDict dv) w (path ++ [k]) ->
  trouble (JDict items) (JDict db) path.
Proof.
  intros Hin Hget [Hnd | [a' [b' [path' [Hcmp Hwhy]]]]].
  - now destruct (Hnd dv).
  - right. exists a', b', path'. split; [| exact Hwhy].
    eapply compared_trans; [| exact Hcmp].
    eapply compared_child; [apply compared_root | exact Hin | exact Hget].
Qed.

Lemma raises_trouble {order : set_order} (a : json) :
  forall (b : json) (path : list string) (e : exn),
    dict_compare order a b path = Raise e -> trouble a b path.
Proof.
  induction a as [x | l | items IH] using json_dict_ind;
    intros b path e H.
  - left. discriminate.
  - left. discriminate.
  - destruct b as [y | m | db];
      try (right; exists (JDict items); eexists _, path;
           split; [apply compared_root | left; discriminate]).
    cbn [dict_compare] in H.
    destruct (items_loop (dict_compare order) (JDict db) path items [])
      as [r1 | e1] eqn:Hloop; cbn [rbind py_keys] in H; [discriminate |].
    destruct (items_loop_raises _ _ _ _ _ _ Hloop)
      as [[k [l [Hin Hr]]] | [k [dv [w [e' [Hin [Hget Hc]]]]]]].
    + right. exists (JDict items), (JDict db), path.
      split; [apply compared_root |]. right.
      exists items, db, k, l. repeat split; tauto.
    + apply (trouble_child items db dv w path k Hin Hget).
      rewrite Forall_forall in IH.
      exact (IH (k, JDict dv) Hin w (path ++ [k]) e' Hc).
Qed.

Lemma trouble_raises {order : set_order} (a b : json) (path : list string) :
  trouble a b path -> exists e, dict_compare order a b path = Raise e.
Proof.
  intros [Hnd | [a' [b' [path' [Hcmp Hwhy]]]]].
  - destruct a as [x | l | d]; try (eexists; reflexivity).
    now destruct (Hnd d).
  - assert (Hsub : exists e, dict_compare order a' b' path' = Raise e).
    { destruct Hwhy as [Hb | [da [db [k [l [-> [-> [Hin [Hhas [Hv Ht]]]]]]]]]].
      - now apply dict_compare_against_non_dict.
      - cbn [dict_compare].
        destruct (items_loop_list_trouble (dict_compare order) db path' k l da
                    Hin Hhas Hv Ht []) as [e He].
        rewrite He. now exists e. }
    destruct (dict_compare order a b path) as [res | e] eqn:H; [| now exists e].
    destruct (compared_results a b path res _ _ _ H Hcmp) as [sub [Hok _]].
    destruct Hsub as [e He]. congruence.
Qed.

Lemma hashables_raises (l : list json) (e : exn) :
  hashables l = Raise e -> e = TypeError.
Proof.
  induction l as [| j l IH]; intros H; [discriminate |].
  simpl in H. destruct j; try (inversion H; reflexivity).
  destruct (hashables l); simpl in H; [discriminate |].
  inversion H; subst. now apply IH.
Qed.

Lemma py_set_raises (x : json) (e : exn) :
  py_set x = Raise e -> e = TypeError.
Proof.
  destruct x as [[| b | q | n | | s] | l | d]; simpl; intros H;
    try discriminate; try (inversion H; reflexivity).
  destruct (hashables l) eqn:Hh; simpl in H; [discriminate |].
  inversion H; subst. now apply (hashables_raises l).
Qed.

Lemma py_in_raises (k : string) (b : json) (e : exn) :
  py_in k b = Raise e -> e = TypeError.
Proof.
  destruct b as [[| c | q | n | | s] | l | d]; simpl; intros H;
    try discriminate; inversion H; reflexivity.
Qed.

(** After [k in b] held, [b[k]] does not raise [KeyError]. *)
Lemma py_getitem_present (k : string) (b : json) :
  py_in k b = Ok true ->
  (exists w, py_getitem b k = Ok w) \/ py_getitem b k = Raise TypeError.
Proof.
  destruct b as [x | l | d]; simpl; intros H; try (now right).
  left. inversion H as [Hhas]. unfold dict_has in Hhas.
  destruct (dict_get k d) as [w |]; [now exists w | discriminate].
Qed.

Lemma items_loop_raises_kind
  (cmp : json -> json -> list string -> res (list string))
  (b : json) (path : list string) (its : list (string * json)) :
  (forall k v, In (k, v) its ->
     forall b' path' e, cmp v b' path' = Raise e ->
       e = TypeError \/ e = AttributeError) ->
  forall result e,
    items_loop cmp b path its result = Raise e ->
    e = TypeError \/ e = AttributeError.
Proof.
  induction its as [| [k v] rest IH]; intros Hrec result e H;
    [discriminate |].
  assert (Hrest : forall result',
            items_loop cmp b path rest result' = Raise e ->
            e = TypeError \/ e = AttributeError).
  { intros result'. apply IH. intros k0 v0 Hin. apply (Hrec k0 v0).
    now right. }
  cbn [items_loop] in H. cbv zeta in H.
  destruct (py_in k b) as [[|] | e0] eqn:Hin; cbn [rbind negb] in H.
  - destruct (py_getitem_present k b Hin) as [[w Hg] | Hg].
    + destruct v as [x | l | dv].
      * destruct (veto _); [eauto |]. rewrite Hg in H. cbn [rbind] in H.
        destruct (negb (py_eq x w)); eauto.
      * destruct (veto _); [eauto |]. unfold list_test in H.
        destruct (py_set (JList l)) as [sv | e1] eqn:Hsv; cbn [rbind] in H.
        -- rewrite Hg in H. cbn [rbind] in H.
           destruct (py_set w) as [sw | e2] eqn:Hsw; cbn [rbind] in H.
           ++ destruct (_ || _); [inversion H; now right | eauto].
           ++ inversion H; subst. left. now apply (py_set_raises w).
        -- inversion H; subst. left. now apply (py_set_raises (JList l)).
      * rewrite Hg in H. cbn [rbind] in H.
        destruct (cmp (JDict dv) w (path ++ [k])) as [sub | e1] eqn:Hc;
          cbn [rbind] in H; [eauto |].
        inversion H; subst.
        exact (Hrec k (JDict dv) (or_introl eq_refl) w (path ++ [k]) e Hc).
    + destruct v as [x | l | dv].
      * destruct (veto _); [eauto |]. rewrite Hg in H. cbn [rbind] in H.
        inversion H. now left.
      * destruct (veto _); [eauto |]. unfold list_test in H.
        destruct (py_set (JList l)) as [sv | e1] eqn:Hsv; cbn [rbind] in H.
        -- rewrite Hg in H. cbn [rbind] in H. inversion H. now left.
        -- inversion H; subst. left. now apply (py_set_raises (JList l)).
      * rewrite Hg in H. cbn [rbind] in H. inversion H. now left.
  - eauto.
  - inversion H; subst. left. now apply (py_in_raises k b).
Qed.

Lemma dict_compare_raises_kind {order : set_order} (a : json) :
  forall (b : json) (path : list string) (e : exn),
    dict_compare order a b path = Raise e ->
    e = TypeError \/ e = AttributeError.
Proof.
  induction a as [x | l | items IH] using json_dict_ind;
    intros b path e H; try (inversion H; now right).
  cbn [dict_compare] in H.
  destruct (items_loop (dict_compare order) b path items [])
    as [r1 | e1] eqn:Hloop;
    cbn [rbind] in H.
  - destruct b; cbn [py_keys rbind] in H; try discriminate;
      inversion H; now right.
  - inversion H; subst e1.
    apply (items_loop_raises_kind (dict_compare order) b path items)
      with (result := []); [| exact Hloop].
    intros k v Hin. rewrite Forall_forall in IH. exact (IH (k, v) Hin).
Qed.

(** X2.  When [dict_compare] raises, and only then: the first value is not
    a dict, or one of the pairs it compares has a second value that is not
    a dict, or a dict of a compared pair holds, under a key that the other
    has and at a path that is not vetoed, a list for which the test of
    line 133 raises or holds.  What it raises is a [TypeError] or an
    [AttributeError]: [b[k]] is never reached with a missing key. *)
Theorem dict_compare_raises_iff (order : set_order) :
  forall (a b : json) (path : list string),
    ((exists e, dict_compare order a b path = Raise e) <-> trouble a b path) /\
    (forall e, dict_compare order a b path = Raise e ->
       e = TypeError \/ e = AttributeError).
Proof.
  intros a b path. split.
  - split.
    + intros [e H]. exact (raises_trouble a b path e H).
    + apply trouble_raises.
  - apply dict_compare_raises_kind.
Qed.

Lemma dict_compare_raises_iff_witness :
  (exists e, dict_compare insertion_order one_list one_list [] = Raise e) /\
  (AttributeError = TypeError \/ AttributeError = AttributeError).
Proof.
  split.
  - apply (proj2 (proj1 (dict_compare_raises_iff insertion_order
                           one_list one_list []))).
    right. exists one_list, one_list, []. split; [apply compared_root |].
    right. exists [("x", JList [JInt 1])]%string,
             [("x", JList [JInt 1])]%string, "x"%string, [JInt 1].
    repeat split; try reflexivity.
    + left. reflexivity.
    + discriminate.
  - apply (proj2 (dict_compare_raises_iff insertion_order one_list one_list [])
             AttributeError).
    reflexivity.
Defined.


(** X3.  A snapshot that holds a list under a key whose path is not vetoed
    cannot be compared with itself: [dict_compare] raises, whatever the
    list holds and whatever else the snapshot holds. *)
Theorem same_snapshot_with_list_raises (order : set_order) :
  forall (items : list (string * json)) (k : string) (l : list json)
         (path : list string),
    NoDup (map fst items) ->
    In (k, JList l) items ->
    veto (join "." (path ++ [k])) = false ->
    exists e,
      dict_compare order (JDict items) (JDict items) path = Raise e /\
      (e = TypeError \/ e = AttributeError).
Proof.
  intros items k l path Hnd Hin Hv.
  pose proof (dict_get_in items k (JList l) Hnd Hin) as Hget.
  destruct (trouble_raises (order := order) (JDict items) (JDict items) path)
    as [e He].
  - right. exists (JDict items), (JDict items), path.
    split; [apply compared_root |]. right.
    exists items, items, k, l. repeat split; auto.
    + exact (dict_has_get _ _ _ Hget).
    + unfold list_test.
      destruct (py_set (JList l)) as [sv | e0] eqn:Hsv; cbn [rbind];
        [| discriminate].
      cbn [py_getitem]. rewrite Hget. cbn [rbind]. rewrite Hsv.
      cbn [rbind].
      destruct (List.length (set_diff sv sv) =? 0)%nat; discriminate.
  - exists e. split; [exact He |].
    exact (dict_compare_raises_kind _ _ _ _ He).
Qed.

Lemma same_snapshot_with_list_raises_witness :
  exists e,
    dict_compare insertion_order list_and_gone list_and_gone [] = Raise e /\
    (e = TypeError \/ e = AttributeError).
Proof.
  apply (same_snapshot_with_list_raises insertion_order
           [("x", JList [JInt 1]); ("gone", JInt 1)]%string
           "x"%string [JInt 1] []).
  - repeat constructor; simpl; intuition discriminate.
  - left. reflexivity.
  - reflexivity.
Defined.

Lemma items_loop_against_empty
  (cmp : json -> json -> list string -> res (list string))
  (path : list string) (its : list (string * json)) :
  forall result,
    items_loop cmp (JDict []) path its result
      = Ok (result ++ key_paths path (map fst its)).
Proof.
  induction its as [| [k v] rest IH]; intros result.
  - simpl. now rewrite app_nil_r.
  - cbn [items_loop]. cbv zeta. cbn [py_in rbind dict_has dict_get negb].
    rewrite IH. now rewrite <- app_assoc.
Qed.

Lemma set_difference_nil_r (ks : list string) :
  NoDup ks -> set_difference ks [] = ks.
Proof.
  intros Hnd. unfold set_difference.
  rewrite (nodup_fixed_point string_dec Hnd).
  induction ks as [| k ks IH]; [reflexivity |].
  simpl. f_equal. apply IH. now inversion Hnd.
Qed.

(** X4.  Against an empty dict, [dict_compare] reports every top-level key
    of the other side and nothing below.  When the new snapshot is empty,
    these are the keys of the old one, in its order.  When the old
    snapshot is empty, they are the keys of the new one, each once, in the
    order in which the run iterates over the set of line 138: some
    arrangement of the keys. *)
Theorem dict_compare_against_empty (order : set_order) :
  (forall (da : list (string * json)) (path : list string),
     dict_compare order (JDict da) (JDict []) path
       = Ok (key_paths path (map fst da))) /\
  (forall (db : list (string * json)) (path : list string),
     NoDup (map fst db) ->
     exists added,
       dict_compare order (JDict []) (JDict db) path = Ok added /\
       Permutation added (key_paths path (map fst db))).
Proof.
  split.
  - intros da path. rewrite dict_compare_dict.
    rewrite items_loop_against_empty. cbn [rbind map app].
    rewrite keys_diff_nil_l. cbn [key_paths map]. now rewrite app_nil_r.
  - intros db path Hnd. rewrite dict_compare_dict.
    cbn [items_loop rbind map app].
    eexists. split; [reflexivity |].
    unfold key_paths. apply Permutation_map.
    rewrite <- (set_difference_nil_r (map fst db) Hnd) at 2.
    apply keys_diff_perm.
Qed.

Lemma dict_compare_against_empty_witness :
  dict_compare insertion_order two_keys (JDict []) [] = Ok ["a"; "b"]%string /\
  exists added,
    dict_compare reverse_order (JDict []) two_keys [] = Ok added /\
    Permutation added ["a"; "b"]%string.
Proof.
  split.
  - apply (proj1 (dict_compare_against_empty insertion_order)
             [("a", JInt 1); ("b", JDict [])]%string []).
  - apply (proj2 (dict_compare_against_empty reverse_order)
             [("a", JInt 1); ("b", JDict [])]%string []).
    repeat constructor; simpl; intuition discriminate.
Defined.


(** ** get_value *)

Lemma split_acc_dotless (k s cur : string) :
  mem_ascii dot k = false ->
  split_acc dot cur (k ++ s) = split_acc dot (cur ++ k) s.
Proof.
  revert cur. induction k as [| c k IH]; intros cur H.
  - simpl. now rewrite append_nil_r.
  - cbn [mem_ascii] in H. apply orb_false_iff in H. destruct H as [Hc Hk].
    cbn [append split_acc]. rewrite Ascii.eqb_sym, Hc.
    rewrite (IH _ Hk). now rewrite append_assoc.
Qed.

(** Splitting a joined path gives its segments back. *)
Lemma split_join (keys : list string) :
  keys <> [] ->
  Forall (fun k => mem_ascii dot k = false) keys ->
  split dot (join "." keys) = keys.
Proof.
  intros Hne Hall. unfold split.
  induction keys as [| k rest IH]; [congruence |].
  inversion Hall as [| ? ? Hk Hrest]; subst.
  destruct rest as [| k2 rest].
  - cbn [join]. rewrite <- (append_nil_r k) at 1.
    rewrite split_acc_dotless by assumption. reflexivity.
  - change (join "." (k :: k2 :: rest))
      with (k ++ String dot (join "." (k2 :: rest)))%string.
    rewrite split_acc_dotless by assumption.
    cbn [append split_acc]. rewrite Ascii.eqb_refl.
    f_equal. apply IH; [discriminate | assumption].
Qed.

Lemma get_value_loop_app (root v : json) (pre more : list string)
  (address : string) (w : world) :
  value_at root pre = Some v ->
  get_value_loop root (pre ++ more) address w
    = get_value_loop v more address w.
Proof.
  revert root. induction pre as [| k pre IH]; intros root H.
  - simpl in H. inversion H. reflexivity.
  - simpl in H. destruct root as [x | l | d]; try discriminate.
    destruct (dict_get k d) as [u |] eqn:Hg; [| discriminate].
    cbn [app get_value_loop py_getitem]. rewrite Hg. now apply IH.
Qed.

(** X5.  [get_value] undoes the path building of [dict_compare]: for a
    chain of keys without dots, the value found under the chain through
    nested dicts is what [get_value] returns for the joined path, and it
    logs nothing. *)
Theorem get_value_resolves :
  forall (root v : json) (keys : list string) (w : world),
    keys <> [] ->
    Forall (fun k => mem_ascii dot k = false) keys ->
    value_at root keys = Some v ->
    get_value root (join "." keys) w = (Ok v, w).
Proof.
  intros root v keys w Hne Hall Hv. unfold get_value.
  rewrite (split_join keys Hne Hall).
  rewrite <- (app_nil_r keys).
  rewrite (get_value_loop_app root v keys [] _ w Hv). reflexivity.
Qed.

Lemma get_value_resolves_witness :
  get_value nested_ab (join "." ["a"; "b"]%string) world0
    = (Ok (JInt 7), world0).
Proof.
  apply (get_value_resolves nested_ab (JInt 7) ["a"; "b"]%string world0).
  - discriminate.
  - repeat constructor.
  - reflexivity.
Defined.

(** X6.  The two ways [get_value] fails on an address.  When the segments
    lead to a dict that lacks the next one, it logs one warning naming the
    segment and the address and returns [None], whatever segments follow.
    When they lead to a value that is not a dict and a segment is left, it
    raises [TypeError], which the [except KeyError] of line 109 does not
    catch. *)
Theorem get_value_failures :
  forall (root : json) (address : string) (pre : list string) (k : string)
         (rest : list string) (w : world),
    split dot address = pre ++ k :: rest ->
    (forall d,
       value_at root pre = Some (JDict d) ->
       dict_get k d = None ->
       get_value root address w =
         (Ok (JScalar SNone),
          add_log w [(LOG, WARNING, KeyErrorAt k address)])) /\
    (forall v,
       value_at root pre = Some v ->
       (forall d, v <> JDict d) ->
       get_value root address w = (Raise TypeError, w)).
Proof.
  intros root address pre k rest w Hsplit. unfold get_value.
  rewrite Hsplit. split.
  - intros d Hpre Hk.
    rewrite (get_value_loop_app root (JDict d) pre _ _ w Hpre).
    cbn [get_value_loop py_getitem]. rewrite Hk. reflexivity.
  - intros v Hpre Hnd.
    rewrite (get_value_loop_app root v pre _ _ w Hpre).
    cbn [get_value_loop].
    destruct v as [x | l | d]; try reflexivity. now destruct (Hnd d).
Qed.

Lemma get_value_failures_witness :
  get_value dotted_key "a.b" world0 =
    (Ok (JScalar SNone),
     add_log world0 [(LOG, WARNING, KeyErrorAt "a" "a.b")]) /\
  get_value (JDict [("a", JInt 1)]%string) "a.b" world0
    = (Raise TypeError, world0).
Proof.
  split.
  - apply (proj1 (get_value_failures dotted_key "a.b"%string []
                    "a"%string ["b"%string] world0 eq_refl)
             [("a.b", JInt 1)]%string); reflexivity.
  - apply (proj2 (get_value_failures (JDict [("a", JInt 1)]%string)
                    "a.b"%string ["a"%string] "b"%string [] world0 eq_refl)
             (JInt 1)); [reflexivity | discriminate].
Defined.


(** ** Processor.compare: what it logs *)

Lemma add_log_nil (w : world) : add_log w [] = w.
Proof. destruct w. unfold add_log. simpl. now rewrite app_nil_r. Qed.

Lemma add_log_app (w : world) (e1 e2 : list (logger * level * message)) :
  add_log (add_log w e1) e2 = add_log w (e1 ++ e2).
Proof. unfold add_log. simpl. now rewrite app_assoc. Qed.

Lemma outputs_app (e1 e2 : list (logger * level * message)) :
  outputs (e1 ++ e2) = outputs e1 ++ outputs e2.
Proof. apply filter_app. Qed.

Lemma value_at_app (root v : json) (pre more : list string) :
  value_at root pre = Some v ->
  value_at root (pre ++ more) = value_at v more.
Proof.
  revert root. induction pre as [| k pre IH]; intros root H.
  - simpl in H. inversion H. reflexivity.
  - simpl in H. destruct root as [x | l | d]; try discriminate.
    cbn [app value_at].
    destruct (dict_get k d) as [u |]; [now apply IH | discriminate].
Qed.

Lemma dict_get_some_in (k : string) (d : list (string * json)) (v : json) :
  dict_get k d = Some v -> In (k, v) d.
Proof.
  induction d as [| [k' v'] d IH]; simpl; [discriminate |].
  destruct (String.eqb k k') eqn:E.
  - apply String.eqb_eq in E. subst. intros H. inversion H. now left.
  - intros H. right. now apply IH.
Qed.

(** Under dot-free keys bound once, the chain of keys of a compared pair
    leads to that pair on both sides. *)
Lemma compared_value_at (a b a' b' : json) (path' : list string) :
  keys_ok a -> keys_ok b ->
  compared a b [] a' b' path' ->
  value_at a path' = Some a' /\ value_at b path' = Some b' /\
  Forall (fun k => mem_ascii dot k = false) path' /\
  keys_ok a' /\ keys_ok b'.
Proof.
  intros Ha Hb Hcmp.
  induction Hcmp as [| da db path' k dv w _ IH Hin Hget].
  - repeat split; auto.
  - destruct IH as [Hva [Hvb [Hdots [Hka Hkb]]]].
    inversion Hka as [| | d Hnd Hdot Hvals]; subst.
    inversion Hkb as [| | d' Hnd' Hdot' Hvals']; subst.
    repeat split.
    + rewrite (value_at_app a (JDict da) path' [k] Hva). cbn [value_at].
      now rewrite (dict_get_in da k (JDict dv) Hnd Hin).
    + rewrite (value_at_app b (JDict db) path' [k] Hvb). cbn [value_at].
      now rewrite Hget.
    + apply Forall_app. split; [exact Hdots |]. constructor; [| constructor].
      apply Hdot. apply in_map_iff. now exists (k, JDict dv).
    + exact (Hvals k (JDict dv) Hin).
    + exact (Hvals' k w (dict_get_some_in k db w Hget)).
Qed.

(** Looking up the last segment in a dict never raises: the value, or
    [None] after one warning on [LOG]. *)
Lemma get_value_under_dict (root : json) (p : string) (pre : list string)
  (k : string) (d : list (string * json)) :
  split dot p = pre ++ [k] ->
  value_at root pre = Some (JDict d) ->
  exists extra,
    outputs extra = [] /\
    forall w, get_value root p w = (Ok (shown root p), add_log w extra).
Proof.
  intros Hsplit Hpre. unfold get_value, shown. rewrite Hsplit.
  rewrite (value_at_app root (JDict d) pre [k] Hpre). cbn [value_at].
  destruct (dict_get k d) as [v |] eqn:Hg.
  - exists []. split; [reflexivity |]. intros w.
    rewrite (get_value_loop_app root (JDict d) pre [k] p w Hpre).
    cbn [get_value_loop py_getitem]. rewrite Hg. cbn [get_value_loop].
    now rewrite add_log_nil.
  - exists [(LOG, WARNING, KeyErrorAt k p)]. split; [reflexivity |].
    intros w.
    rewrite (get_value_loop_app root (JDict d) pre [k] p w Hpre).
    cbn [get_value_loop py_getitem]. rewrite Hg. reflexivity.
Qed.

Lemma for_each_outputs {A : Type} (f : A -> M unit)
  (g : A -> logger * level * message) (l : list A) :
  (forall x, In x l ->
     exists extra,
       outputs extra = [g x] /\
       forall w, f x w = (Ok tt, add_log w extra)) ->
  exists extra,
    outputs extra = map g l /\
    forall w, for_each l f w = (Ok tt, add_log w extra).
Proof.
  induction l as [| x l IH]; intros Hf.
  - exists []. split; [reflexivity |]. intros w. simpl.
    now rewrite add_log_nil.
  - destruct (Hf x (or_introl eq_refl)) as [e1 [Ho1 Hr1]].
    destruct IH as [e2 [Ho2 Hr2]].
    { intros y Hy. apply Hf. now right. }
    exists (e1 ++ e2). split.
    + rewrite outputs_app, Ho1, Ho2. reflexivity.
    + intros w. cbn [for_each]. unfold mbind. rewrite Hr1, Hr2.
      now rewrite add_log_app.
Qed.

Lemma slice_last_two {A : Type} (older : list A) (s1 s2 : A) :
  slice_from (-2) (older ++ [s1; s2]) = [s1; s2].
Proof.
  rewrite (slice_from_neg 2) by lia.
  rewrite length_app. cbn [List.length].
  replace (List.length older + 2 - 2)%nat with (List.length older + 0)%nat
    by lia.
  rewrite skipn_app, skipn_all2 by lia.
  replace (List.length older + 0 - List.length older)%nat with 0%nat by lia.
  reflexivity.
Qed.

(** X7.  What [compare] writes to the change log.  When the two latest
    snapshots bind each key once with keys that hold no dot, and
    [dict_compare] returns, [compare] returns normally and hands [OUTPUT]
    exactly one record per reported path, in the order of the result, with
    the values that the old and the new snapshot hold at that path, [None]
    standing for a key that is not there. *)
Theorem compare_logs_changes (order : set_order) :
  forall (self : Processor.t) (older : list (Q * json)) (ta tb : Q)
         (a b : json) (res : list string),
    Processor.data self = older ++ [(ta, a); (tb, b)] ->
    keys_ok a -> keys_ok b ->
    dict_compare order a b [] = Ok res ->
    exists extra,
      outputs extra =
        map (fun p => (OUTPUT, INFO,
                       Change (Processor.id self) p (shown a p) (shown b p)))
            res /\
      forall w, Processor.compare order self w = (Ok tt, add_log w extra).
Proof.
  intros self older ta tb a b res Hdata Ha Hb Hres.
  destruct (for_each_outputs
              (fun key =>
                 old <-- get_value a key ;;
                 new <-- get_value b key ;;
                 emit OUTPUT INFO (Change (Processor.id self) key old new))
              (fun p => (OUTPUT, INFO,
                         Change (Processor.id self) p (shown a p) (shown b p)))
              res) as [extra [Hout Hrun]].
  { intros p Hp.
    destruct (reported_origin a b [] res Hres p Hp)
      as [da [db [path' [k [Hcmp [Ep Hwhy]]]]]].
    destruct (compared_value_at a b _ _ path' Ha Hb Hcmp)
      as [Hva [Hvb [Hdots [Hka Hkb]]]].
    inversion Hka as [| | d Hnd Hdot Hvals]; subst d.
    inversion Hkb as [| | d' Hnd' Hdot' Hvals']; subst d'.
    assert (Hk : mem_ascii dot k = false).
    { destruct Hwhy as [[Hin _] | [[_ Hin] | [_ [x [w [Hin _]]]]]].
      - now apply Hdot.
      - now apply Hdot'.
      - apply Hdot. apply in_map_iff. now exists (k, JScalar x). }
    assert (Hsplit : split dot p = path' ++ [k]).
    { rewrite Ep. apply split_join.
      - destruct path'; discriminate.
      - apply Forall_app. split; [exact Hdots |]. now repeat constructor. }
    destruct (get_value_under_dict a p path' k da Hsplit Hva)
      as [e1 [Ho1 Hr1]].
    destruct (get_value_under_dict b p path' k db Hsplit Hvb)
      as [e2 [Ho2 Hr2]].
    exists (e1 ++ e2 ++
            [(OUTPUT, INFO,
              Change (Processor.id self) p (shown a p) (shown b p))]).
    split.
    - rewrite !outputs_app, Ho1, Ho2. reflexivity.
    - intros w. unfold mbind. rewrite Hr1, Hr2. unfold emit, add_log.
      cbn [issued ticks logged]. now rewrite <- !app_assoc. }
  exists ((LOG, DEBUG, Comparing (Processor.id self) ta tb) :: extra).
  split.
  - exact Hout.
  - intros w. unfold Processor.compare. rewrite Hdata, slice_last_two.
    cbn [List.length Nat.eqb negb]. unfold mbind at 1. unfold emit at 1.
    unfold mbind at 1. unfold lift at 1. rewrite Hres, Hrun.
    unfold add_log. cbn [issued ticks logged].
    now rewrite <- app_assoc.
Qed.

Lemma compare_logs_changes_witness :
  exists extra,
    outputs extra =
      [(OUTPUT, INFO,
        Change "Megapixel h" "name" (shown (snd sample_old) "name")
               (shown (snd sample_new) "name"));
       (OUTPUT, INFO,
        Change "Megapixel h" "sys.load" (shown (snd sample_old) "sys.load")
               (shown (snd sample_new) "sys.load"))] /\
    forall w,
      Processor.compare insertion_order processor_xy w
        = (Ok tt, add_log w extra).
Proof.
  apply (compare_logs_changes insertion_order processor_xy [] 0%Q 1%Q
           (snd sample_old) (snd sample_new) ["name"; "sys.load"]%string).
  - reflexivity.
  - apply keys_ok_dict.
    + repeat constructor; simpl; intuition discriminate.
    + intros k [<- | [<- | []]]; reflexivity.
    + intros k v [E | [E | []]]; inversion E; subst.
      * constructor.
      * apply keys_ok_dict.
        -- repeat constructor; simpl; intuition.
        -- intros k' [<- | []]; reflexivity.
        -- intros k' v' [E' | []]. inversion E'. constructor.
  - apply keys_ok_dict.
    + repeat constructor; simpl; intuition discriminate.
    + intros k [<- | [<- | []]]; reflexivity.
    + intros k v [E | [E | []]]; inversion E; subst.
      * constructor.
      * apply keys_ok_dict.
        -- repeat constructor; simpl; intuition.
        -- intros k' [<- | []]; reflexivity.
        -- intros k' v' [E' | []]. inversion E'. constructor.
  - reflexivity.
Defined.


Lemma get_value_loop_only_logs (parts : list string) :
  forall (cursor : json) (address : string),
  exists r extra,
    forall w, get_value_loop cursor parts address w = (r, add_log w extra).
Proof.
  induction parts as [| part rest IH]; intros cursor address.
  - exists (Ok cursor), []. intros w. simpl. now rewrite add_log_nil.
  - cbn [get_value_loop].
    destruct (py_getitem cursor part) as [next | e].
    + apply IH.
    + destruct e;
        try (eexists (Raise _), []; intros w; unfold raise;
             now rewrite add_log_nil).
      exists (Ok (JScalar SNone)), [(LOG, WARNING, KeyErrorAt part address)].
      intros w. reflexivity.
Qed.

Lemma for_each_only_logs {A : Type} (f : A -> M unit) (l : list A) :
  (forall x, exists r extra, forall w, f x w = (r, add_log w extra)) ->
  exists r extra, forall w, for_each l f w = (r, add_log w extra).
Proof.
  intros Hf. induction l as [| x l IH].
  - exists (Ok tt), []. intros w. simpl. now rewrite add_log_nil.
  - destruct (Hf x) as [r1 [e1 H1]]. destruct IH as [r2 [e2 H2]].
    destruct r1 as [[] | e].
    + exists r2, (e1 ++ e2). intros w. cbn [for_each]. unfold mbind.
      rewrite H1, H2. now rewrite add_log_app.
    + exists (Raise e), e1. intros w. cbn [for_each]. unfold mbind.
      now rewrite H1.
Qed.

Lemma compare_only_logs {order : set_order} (self : Processor.t) :
  exists r extra,
    forall w, Processor.compare order self w = (r, add_log w extra).
Proof.
  unfold Processor.compare.
  destruct (negb (List.length (slice_from (-2) (Processor.data self)) =? 2)%nat).
  - exists (Ok tt), []. intros w. unfold ret. now rewrite add_log_nil.
  - destruct (slice_from (-2) (Processor.data self))
      as [| [ta a] [| [tb b] [| s3 more]]];
      try (exists (Ok tt), []; intros w; unfold ret; now rewrite add_log_nil).
    destruct (dict_compare order a b []) as [changes | e] eqn:Hres.
    + destruct (for_each_only_logs
                  (fun key =>
                     old <-- get_value a key ;;
                     new <-- get_value b key ;;
                     emit OUTPUT INFO (Change (Processor.id self) key old new))
                  changes) as [r [extra Hrun]].
      { intros key. unfold get_value.
        destruct (get_value_loop_only_logs (split dot key) a key)
          as [r1 [e1 H1]].
        destruct (get_value_loop_only_logs (split dot key) b key)
          as [r2 [e2 H2]].
        destruct r1 as [old | e].
        - destruct r2 as [new | e].
          + exists (Ok tt),
              (e1 ++ e2 ++
               [(OUTPUT, INFO, Change (Processor.id self) key old new)]).
            intros w. unfold mbind. rewrite H1, H2. unfold emit, add_log.
            cbn [issued ticks logged]. now rewrite <- !app_assoc.
          + exists (Raise e), (e1 ++ e2). intros w. unfold mbind.
            rewrite H1, H2. now rewrite add_log_app.
        - exists (Raise e), e1. intros w. unfold mbind. now rewrite H1. }
      exists r, ((LOG, DEBUG, Comparing (Processor.id self) ta tb) :: extra).
      intros w. unfold mbind at 1. unfold emit at 1. unfold mbind at 1.
      unfold lift at 1. rewrite Hrun. unfold add_log.
      cbn [issued ticks logged]. now rewrite <- app_assoc.
    + exists (Raise e), [(LOG, DEBUG, Comparing (Processor.id self) ta tb)].
      intros w. unfold mbind, emit, lift. reflexivity.
Qed.

(** X8.  [compare] reads the two latest samples and nothing else: older
    samples do not change what it does.  It issues no request and takes no
    clock reading, and what it returns and logs is the same in every
    world. *)
Theorem compare_reads_last_two (order : set_order) :
  forall (self : Processor.t) (older : list (Q * json)) (s1 s2 : Q * json),
    Processor.data self = older ++ [s1; s2] ->
    exists r extra,
      forall w,
        Processor.compare order self w = (r, add_log w extra) /\
        Processor.compare order (Processor.set_data self [s1; s2]) w
          = (r, add_log w extra).
Proof.
  intros self older s1 s2 Hdata.
  destruct (compare_only_logs (order := order) self) as [r [extra Hrun]].
  exists r, extra. intros w. split; [apply Hrun |].
  rewrite <- Hrun. unfold Processor.compare.
  rewrite Hdata, slice_last_two.
  cbn [Processor.set_data Processor.data Processor.id].
  reflexivity.
Qed.

Lemma compare_reads_last_two_witness :
  exists r extra,
    forall w,
      Processor.compare insertion_order
        (Processor.set_data processor_xy [sample_old; sample_old; sample_new])
        w = (r, add_log w extra) /\
      Processor.compare insertion_order
        (Processor.set_data
           (Processor.set_data processor_xy
              [sample_old; sample_old; sample_new])
           [sample_old; sample_new]) w
        = (r, add_log w extra).
Proof.
  apply (compare_reads_last_two insertion_order
           (Processor.set_data processor_xy
              [sample_old; sample_old; sample_new])
           [sample_old] sample_old sample_new).
  reflexivity.
Defined.

(** X9.  During an outage the change lines repeat.  When the request of
    [sample] raises [ConnectionError], the polling turn of the processor
    logs the warning and then runs [compare] on the history as it was: it
    returns and logs what [compare] returned and logged for that history
    before, change lines included. *)
Theorem outage_repeats_changes (order : set_order) :
  forall (net : nat -> request -> res response) (clock : nat -> Q)
         (self : Processor.t) (w : world),
    net (List.length (issued w)) (sample_request self)
      = Raise ConnectionError ->
    exists r extra,
      (forall w0, Processor.compare order self w0 = (r, add_log w0 extra)) /\
      poll_cycle order net clock [self] w =
        (match r with
         | Ok _ => Ok [self]
         | Raise e => Raise e
         end,
         mkWorld (issued w ++ [sample_request self]) (S (ticks w))
                 (logged w ++
                  (LOG, WARNING,
                   SampleFailed (Processor.id self) ConnectionError)
                  :: extra)).
Proof.
  intros net clock self w Hnet.
  destruct (compare_only_logs (order := order) self) as [r [extra Hrun]].
  exists r, extra. split; [exact Hrun |].
  cbn [poll_cycle]. unfold mbind at 1.
  rewrite (sample_on_connection_error net clock self w Hnet).
  unfold mbind at 1. rewrite Hrun. unfold add_log.
  cbn [issued ticks logged]. rewrite <- app_assoc.
  destruct r as [[] | e]; reflexivity.
Qed.

Lemma outage_repeats_changes_witness :
  exists r extra,
    (forall w0,
       Processor.compare insertion_order processor_xy w0
         = (r, add_log w0 extra)) /\
    poll_cycle insertion_order net_down clock_nat [processor_xy] world0 =
      (match r with
       | Ok _ => Ok [processor_xy]
       | Raise e => Raise e
       end,
       mkWorld (issued world0 ++ [sample_request processor_xy])
               (S (ticks world0))
               (logged world0 ++
                (LOG, WARNING,
                 SampleFailed (Processor.id processor_xy) ConnectionError)
                :: extra)).
Proof.
  apply (outage_repeats_changes insertion_order net_down clock_nat
           processor_xy world0).
  reflexivity.
Defined.


(** ** Processor.sample and the polling cycle *)

Lemma set_data_same (self : Processor.t) :
  Processor.set_data self (Processor.data self) = self.
Proof. destruct self. reflexivity. Qed.

Lemma exn_eq_connection (e : exn) :
  e = ConnectionError \/ e <> ConnectionError.
Proof. destruct e; (now left) || (right; discriminate). Qed.

(** X10.  What ends a polling cycle.  [sample] catches [ConnectionError]
    only: any other exception of the request, and the [ValueError] of
    [res.json()] on a 2xx answer whose body is not JSON, leaves [sample]
    with nothing logged, and leaves the cycle before [compare] and before
    the processors that follow. *)
Theorem sample_uncaught (order : set_order) :
  forall (net : nat -> request -> res response) (clock : nat -> Q)
         (self : Processor.t) (w : world) (e : exn),
    (net (List.length (issued w)) (sample_request self) = Raise e /\
     e <> ConnectionError) \/
    (exists r,
       net (List.length (issued w)) (sample_request self) = Ok r /\
       success (status_code r) = true /\ body r = None /\ e = ValueError) ->
    Processor.sample net clock self w
      = (Raise e, after_request w (sample_request self)) /\
    forall rest,
      poll_cycle order net clock (self :: rest) w
        = (Raise e, after_request w (sample_request self)).
Proof.
  intros net clock self w e H.
  pose proof (sample_propagates net clock self w e H) as Hs.
  split; [exact Hs |].
  intros rest. cbn [poll_cycle]. unfold mbind at 1. now rewrite Hs.
Qed.

Lemma sample_uncaught_witness :
  Processor.sample net_not_json clock_nat processor_h world0
    = (Raise ValueError, after_request world0 (sample_request processor_h)) /\
  forall rest,
    poll_cycle insertion_order net_not_json clock_nat (processor_h :: rest)
      world0
      = (Raise ValueError, after_request world0 (sample_request processor_h)).
Proof.
  apply (sample_uncaught insertion_order net_not_json clock_nat processor_h
           world0 ValueError).
  right. exists (mkResponse 200 None). repeat split.
Defined.

(** X11.  A status outside 200 to 299 is logged as one warning that names
    the status, and a history of at most three samples is left as it
    was. *)
Theorem sample_bad_status :
  forall (net : nat -> request -> res response) (clock : nat -> Q)
         (self : Processor.t) (w : world) (r : response),
    net (List.length (issued w)) (sample_request self) = Ok r ->
    success (status_code r) = false ->
    (List.length (Processor.data self) <= 3)%nat ->
    Processor.sample net clock self w =
      (Ok self,
       add_log (after_request w (sample_request self))
         [(LOG, WARNING,
           ErrorLoading (status_code r) (Processor.id self))]).
Proof.
  intros net clock self w r Hnet Hs Hlen.
  run_sample. unfold sample_request in Hnet. rewrite Hnet, Hs.
  rewrite slice_last3, last3_short by assumption.
  now rewrite set_data_same.
Qed.

Lemma sample_bad_status_witness :
  Processor.sample net_503 clock_nat processor_xy world0 =
    (Ok processor_xy,
     add_log (after_request world0 (sample_request processor_xy))
       [(LOG, WARNING, ErrorLoading 503 "Megapixel h")]).
Proof.
  apply (sample_bad_status net_503 clock_nat processor_xy world0
           (mkResponse 503 None)).
  - reflexivity.
  - reflexivity.
  - simpl. lia.
Defined.

(** Whatever the answer, [sample] issues its one request, reads the clock
    once, and returns the same device. *)
Lemma sample_frame (net : nat -> request -> res response) (clock : nat -> Q)
  (self : Processor.t) (w : world) :
  exists r extra,
    Processor.sample net clock self w
      = (r, add_log (after_request w (sample_request self)) extra) /\
    forall p, r = Ok p ->
      same_device self p /\
      ((List.length (Processor.data self) <= 3)%nat ->
       (List.length (Processor.data p) <= 3)%nat).
Proof.
  unfold same_device.
  destruct (net (List.length (issued w)) (sample_request self))
    as [r | e] eqn:Hnet.
  - destruct (success (status_code r)) eqn:Hs.
    + destruct (body r) as [j |] eqn:Hb.
      * eexists _, [(LOG, DEBUG, AppendedSample (Processor.id self))].
        split.
        -- run_sample. unfold sample_request in Hnet. rewrite Hnet, Hs.
           unfold response_json. rewrite Hb. reflexivity.
        -- intros p E. inversion E; subst p.
           cbn [Processor.set_data Processor.url Processor.host
                  Processor.manu Processor.id Processor.data].
           repeat split. intros _. rewrite slice_last3. apply last3_length.
      * exists (Raise ValueError), []. split; [| discriminate].
        rewrite add_log_nil.
        apply (sample_propagates net clock self w ValueError).
        right. exists r. auto.
    + eexists _, [(LOG, WARNING,
                   ErrorLoading (status_code r) (Processor.id self))].
      split.
      * run_sample. unfold sample_request in Hnet. rewrite Hnet, Hs.
        reflexivity.
      * intros p E. inversion E; subst p.
        cbn [Processor.set_data Processor.url Processor.host
               Processor.manu Processor.id Processor.data].
        repeat split. intros _. rewrite slice_last3. apply last3_length.
  - destruct (exn_eq_connection e) as [-> | Hne].
    + exists (Ok self),
        [(LOG, WARNING, SampleFailed (Processor.id self) ConnectionError)].
      split.
      * apply (sample_on_connection_error net clock self w Hnet).
      * intros p E. inversion E; subst p. repeat split. auto.
    + exists (Raise e), []. split; [| discriminate].
      rewrite add_log_nil.
      apply (sample_propagates net clock self w e). now left.
Qed.


(** X12.  A polling cycle that returns has sampled every processor once,
    in order: it issued the request of each and read the clock once for
    each, it returns the same devices, and histories of at most three
    samples stay so. *)
Theorem poll_cycle_samples_each_once (order : set_order) :
  forall (net : nat -> request -> res response) (clock : nat -> Q)
         (ps ps' : list Processor.t) (w w' : world),
    poll_cycle order net clock ps w = (Ok ps', w') ->
    Forall2 same_device ps ps' /\
    issued w' = issued w ++ map sample_request ps /\
    ticks w' = (ticks w + List.length ps)%nat /\
    (Forall (fun p => (List.length (Processor.data p) <= 3)%nat) ps ->
     Forall (fun p => (List.length (Processor.data p) <= 3)%nat) ps').
Proof.
  intros net clock ps. induction ps as [| p rest IH]; intros ps' w w' H.
  - simpl in H. inversion H; subst. repeat split; auto; try lia.
    simpl. now rewrite app_nil_r.
  - cbn [poll_cycle] in H. unfold mbind at 1 in H.
    destruct (sample_frame net clock p w) as [r [e1 [Hs Hp]]].
    rewrite Hs in H. destruct r as [p1 |]; [| discriminate].
    destruct (Hp p1 eq_refl) as [Hsame Hlen].
    unfold mbind at 1 in H.
    destruct (compare_only_logs (order := order) p1) as [r2 [e2 Hc]].
    rewrite Hc in H. destruct r2 as [[] |]; [| discriminate].
    unfold mbind at 1 in H.
    destruct (poll_cycle order net clock rest
                (add_log (add_log (after_request w (sample_request p)) e1) e2))
      as [[ps2 | e] w3] eqn:Hrest; [| discriminate].
    unfold ret in H. inversion H; subst ps' w'. clear H.
    destruct (IH _ _ _ Hrest) as [Hdev [Hiss [Hticks Hinv]]].
    repeat split.
    + constructor; assumption.
    + rewrite Hiss. cbn [add_log after_request issued map].
      now rewrite <- app_assoc.
    + rewrite Hticks. cbn [add_log after_request ticks List.length]. lia.
    + intros Hall. inversion Hall; subst. constructor; auto.
Qed.

Lemma poll_cycle_samples_each_once_witness :
  Forall2 same_device [processor_h]
    [Processor.set_data processor_h [sample_at 0]] /\
  issued (mkWorld [sample_request processor_h] 1
            [(LOG, DEBUG, AppendedSample "Megapixel h")])
    = issued world0 ++ map sample_request [processor_h] /\
  ticks (mkWorld [sample_request processor_h] 1
           [(LOG, DEBUG, AppendedSample "Megapixel h")])
    = (ticks world0 + List.length [processor_h])%nat /\
  (Forall (fun p => (List.length (Processor.data p) <= 3)%nat)
     [processor_h] ->
   Forall (fun p => (List.length (Processor.data p) <= 3)%nat)
     [Processor.set_data processor_h [sample_at 0]]).
Proof.
  apply (poll_cycle_samples_each_once insertion_order net_ok clock_nat
           [processor_h] [Processor.set_data processor_h [sample_at 0]] world0).
  reflexivity.
Defined.

(** ** main: building the polling set *)






Lemma build_processors_down (net : nat -> request -> res response)
  (hosts : list string) :
  (forall n q, net n q = Raise ConnectionError) ->
  forall (processors : list Processor.t) (w : world),
    build_processors net hosts processors w =
      (Ok processors,
       mkWorld (issued w ++ map megapixel_probe hosts) (ticks w)
               (logged w ++
                map (fun h => (LOG, WARNING, Ignoring h ConnectionError))
                    hosts)).
Proof.
  intros Hnet. induction hosts as [| host rest IH]; intros processors w.
  - simpl. unfold ret. rewrite !app_nil_r. now destruct w.
  - cbn [build_processors]. unfold mbind at 1. unfold attempt.
    rewrite (init_first_probe_raises net host w ConnectionError (Hnet _ _)).
    unfold mbind, emit. rewrite IH. cbn [issued ticks logged map].
    now rewrite <- !app_assoc.
Qed.

(** X14.  With the network down, start-up still returns: one probe, the
    Megapixel one, and one warning per host, an empty polling set, and
    the count of ignored hosts logged as an error when there is a host at
    all. *)
Theorem init_processors_network_down :
  forall (net : nat -> request -> res response) (hosts : list string)
         (w : world),
    (forall n q, net n q = Raise ConnectionError) ->
    init_processors net hosts w =
      (Ok [],
       mkWorld (issued w ++ map megapixel_probe hosts) (ticks w)
         (logged w ++
          (LOG, DEBUG, InitializingProcessors)
          :: map (fun h => (LOG, WARNING, Ignoring h ConnectionError)) hosts
          ++ match hosts with
             | [] => []
             | _ :: _ =>
                 [(LOG, ERROR, HostsIgnored (Z.of_nat (List.length hosts)))]
             end
          ++ [(OUTPUT, INFO, ProcessStarted)])).
Proof.
  intros net hosts w Hnet. unfold init_processors.
  unfold mbind at 1. unfold emit at 1. unfold mbind at 1.
  rewrite (build_processors_down net hosts Hnet). cbn [issued ticks logged].
  destruct hosts as [| h rest].
  - cbn. now rewrite <- !app_assoc.
  - cbn [List.length Nat.eqb negb]. unfold mbind, emit.
    cbn [issued ticks logged List.length]. rewrite Z.sub_0_r.
    rewrite <- !app_assoc. reflexivity.
Qed.

Lemma init_processors_network_down_witness :
  init_processors net_down ["a"; "b"]%string world0 =
    (Ok [],
     mkWorld [megapixel_probe "a"; megapixel_probe "b"] 0
       [(LOG, DEBUG, InitializingProcessors);
        (LOG, WARNING, Ignoring "a" ConnectionError);
        (LOG, WARNING, Ignoring "b" ConnectionError);
        (LOG, ERROR, HostsIgnored 2);
        (OUTPUT, INFO, ProcessStarted)]).
Proof.
  apply (init_processors_network_down net_down ["a"; "b"]%string world0).
  reflexivity.
Defined.

(** ** Processor.__init__: what it raises *)



(** ** Processor.__init__: the label *)

(** X16.  Labels are not unique.  For two addresses whose last segments
    are numeric and that end in the same character, a vendor gives the
    same label: the other digits and the other segments play no part. *)
Theorem label_from_last_character :
  forall (manu h1 h2 seg1 seg2 p1 p2 : string) (c : ascii),
    final_segment h1 seg1 -> seg1 <> EmptyString -> all_digits seg1 = true ->
    final_segment h2 seg2 -> seg2 <> EmptyString -> all_digits seg2 = true ->
    h1 = (p1 ++ String c "")%string ->
    h2 = (p2 ++ String c "")%string ->
    Processor.display_id manu h1 = Processor.display_id manu h2.
Proof.
  intros manu h1 h2 seg1 seg2 p1 p2 c Hf1 Hn1 Hd1 Hf2 Hn2 Hd2 E1 E2.
  destruct (display_id_decimal manu h1 seg1 Hf1 Hn1 Hd1)
    as [q1 [c1 [F1 [_ R1]]]].
  destruct (display_id_decimal manu h2 seg2 Hf2 Hn2 Hd2)
    as [q2 [c2 [F2 [_ R2]]]].
  assert (Hc1 : c1 = c).
  { assert (H : str_last h1 = Ok c1)
      by (rewrite F1; now rewrite str_last_app by discriminate).
    rewrite E1, str_last_app in H by discriminate. now inversion H. }
  assert (Hc2 : c2 = c).
  { assert (H : str_last h2 = Ok c2)
      by (rewrite F2; now rewrite str_last_app by discriminate).
    rewrite E2, str_last_app in H by discriminate. now inversion H. }
  subst c1 c2. now rewrite R1, R2.
Qed.

Lemma label_from_last_character_witness :
  Processor.display_id "Brompton" "10.0.0.1"
    = Processor.display_id "Brompton" "10.0.1.11".
Proof.
  apply (label_from_last_character "Brompton" "10.0.0.1" "10.0.1.11"
           "1" "11" "10.0.0." "10.0.1.1" "1"%char).
  - split; [reflexivity |]. right. now exists "10.0.0"%string.
  - discriminate.
  - reflexivity.
  - split; [reflexivity |]. right. now exists "10.0.1"%string.
  - discriminate.
  - reflexivity.
  - reflexivity.
  - reflexivity.
Defined.


(** ** The other VETO patterns *)

Lemma veto_of_rule (r : regex) (s : string) :
  In r VETO -> re_match r s = true -> veto s = true.
Proof.
  intros Hin Hm. unfold veto. apply existsb_exists. now exists r.
Qed.

Lemma no_newline_any (pre : string) :
  mem_ascii newline pre = false ->
  forall c, mem_ascii c pre = true -> cclass_match CAny c = true.
Proof.
  intros H c Hc. simpl. now rewrite (mem_ascii_false _ _ H c Hc).
Qed.

Lemma all_digits_class (ds : string) :
  all_digits ds = true ->
  forall c, mem_ascii c ds = true -> cclass_match CDigit c = true.
Proof.
  induction ds as [| d ds IH]; intros H c Hc; [discriminate |].
  simpl in H. apply andb_true_iff in H. destruct H as [Hd Hds].
  cbn [mem_ascii] in Hc. apply orb_true_iff in Hc. destruct Hc as [Hc | Hc].
  - apply Ascii.eqb_eq in Hc. now subst.
  - now apply IH.
Qed.

Lemma veto_private_subtree_aux (rest : string) :
  veto (String "_" rest) = true.
Proof.
  apply (veto_of_rule veto_private).
  - unfold VETO. simpl. tauto.
  - reflexivity.
Qed.

(** X17.  A path whose first character is an underscore is vetoed,
    whatever follows: under a top-level key that starts with an
    underscore, every path is. *)
Theorem veto_private_subtree :
  forall (k : string) (more : list string),
    veto (join "." (String "_" k :: more)) = true.
Proof.
  intros k more. apply (veto_of_rule veto_private).
  - unfold VETO. simpl. tauto.
  - destruct more as [| m more]; cbn [join append]; reflexivity.
Qed.

(** X18.  The pattern for [stringId] has no [$]: a path is vetoed as soon
    as [.stringId] occurs in it after a part without newline, at the end
    or not. *)
Theorem veto_string_id_anywhere :
  forall (pre rest : string),
    mem_ascii newline pre = false ->
    veto (pre ++ ".stringId" ++ rest) = true.
Proof.
  intros pre rest Hpre. apply (veto_of_rule veto_string_id).
  - unfold VETO. simpl. tauto.
  - unfold re_match, veto_string_id, seqs. cbn [fold_right].
    rewrite re_run_seq. apply re_run_star; [now apply no_newline_any |].
    intros b. rewrite re_run_seq.
    apply re_run_lit. intros b'. reflexivity.
Qed.

Lemma veto_string_id_anywhere_witness :
  veto ("dev" ++ ".stringId" ++ "entifier.x") = true.
Proof.
  apply (veto_string_id_anywhere "dev" "entifier.x"). reflexivity.
Defined.

(** X19.  The patterns anchored at the end.  After any part without
    newline, a path is vetoed when it ends in [_I]; in a dot and one of
    the nine volatile names; in [.FanCtrl(], digits and [)]; in [.SFP #],
    digits and [ Tx], [ Rx] or [ Temp]. *)
Theorem veto_suffix_rules :
  forall pre : string,
    mem_ascii newline pre = false ->
    veto (pre ++ "_I") = true /\
    (forall name, In name volatile_names ->
       veto (pre ++ "." ++ name) = true) /\
    (forall ds, ds <> EmptyString -> all_digits ds = true ->
       veto (pre ++ ".FanCtrl(" ++ ds ++ ")") = true /\
       veto (pre ++ ".SFP #" ++ ds ++ " Tx") = true /\
       veto (pre ++ ".SFP #" ++ ds ++ " Rx") = true /\
       veto (pre ++ ".SFP #" ++ ds ++ " Temp") = true).
Proof.
  intros pre Hpre. pose proof (no_newline_any pre Hpre) as Hany.
  split; [| split].
  - apply (veto_of_rule veto_internal); [unfold VETO; simpl; tauto |].
    unfold re_match, veto_internal, seqs. cbn [fold_right].
    rewrite re_run_seq. apply re_run_star; [exact Hany |].
    intros b. reflexivity.
  - intros name Hname.
    apply (veto_of_rule veto_volatile); [unfold VETO; simpl; tauto |].
    unfold re_match, veto_volatile, seqs. cbn [fold_right].
    rewrite re_run_seq. apply re_run_star; [exact Hany |].
    intros b1. rewrite re_run_seq. apply re_run_lit. intros b2.
    rewrite re_run_seq. rewrite <- (append_nil_r name).
    apply re_run_alt_lits; [exact Hname |]. intros b3. reflexivity.
  - intros ds Hne Hds. pose proof (all_digits_class ds Hds) as Hdig.
    repeat split.
    + apply (veto_of_rule veto_fan_ctrl); [unfold VETO; simpl; tauto |].
      unfold re_match, veto_fan_ctrl, seqs. cbn [fold_right].
      rewrite re_run_seq. apply re_run_star; [exact Hany |].
      intros b1. rewrite re_run_seq. apply re_run_lit. intros b2.
      rewrite re_run_seq. apply re_run_plus; [exact Hne | exact Hdig |].
      reflexivity.
    + apply (veto_of_rule veto_sfp_txrx); [unfold VETO; simpl; tauto |].
      unfold re_match, veto_sfp_txrx, seqs. cbn [fold_right].
      rewrite re_run_seq. apply re_run_star; [exact Hany |].
      intros b1. rewrite re_run_seq. apply re_run_lit. intros b2.
      rewrite re_run_seq. apply re_run_plus; [exact Hne | exact Hdig |].
      reflexivity.
    + apply (veto_of_rule veto_sfp_txrx); [unfold VETO; simpl; tauto |].
      unfold re_match, veto_sfp_txrx, seqs. cbn [fold_right].
      rewrite re_run_seq. apply re_run_star; [exact Hany |].
      intros b1. rewrite re_run_seq. apply re_run_lit. intros b2.
      rewrite re_run_seq. apply re_run_plus; [exact Hne | exact Hdig |].
      reflexivity.
    + apply (veto_of_rule veto_sfp_temp); [unfold VETO; simpl; tauto |].
      unfold re_match, veto_sfp_temp, seqs. cbn [fold_right].
      rewrite re_run_seq. apply re_run_star; [exact Hany |].
      intros b1. rewrite re_run_seq. apply re_run_lit. intros b2.
      rewrite re_run_seq. apply re_run_plus; [exact Hne | exact Hdig |].
      reflexivity.
Qed.

Lemma veto_suffix_rules_witness :
  veto ("dev.temp" ++ "_I") = true /\
  (forall name, In name volatile_names ->
     veto ("dev.temp" ++ "." ++ name) = true) /\
  (forall ds, ds <> EmptyString -> all_digits ds = true ->
     veto ("dev.temp" ++ ".FanCtrl(" ++ ds ++ ")") = true /\
     veto ("dev.temp" ++ ".SFP #" ++ ds ++ " Tx") = true /\
     veto ("dev.temp" ++ ".SFP #" ++ ds ++ " Rx") = true /\
     veto ("dev.temp" ++ ".SFP #" ++ ds ++ " Temp") = true).
Proof.
  apply (veto_suffix_rules "dev.temp"). reflexivity.
Defined.


Lemma star_run_elim (cl : cclass) (s : string) (k : string -> bool) :
  star_run cl s k = true ->
  exists pre t,
    s = (pre ++ t)%string /\
    (forall c, mem_ascii c pre = true -> cclass_match cl c = true) /\
    k t = true.
Proof.
  induction s as [| c s IH]; cbn [star_run]; intros H.
  - exists EmptyString, EmptyString. rewrite orb_false_r in H.
    repeat split; [discriminate | exact H].
  - apply orb_true_iff in H. destruct H as [H | H].
    + exists EmptyString, (String c s). repeat split; [discriminate | exact H].
    + apply andb_true_iff in H. destruct H as [Hc Hs].
      destruct (IH Hs) as [pre [t [E [Hpre Hk]]]].
      exists (String c pre), t. repeat split.
      * simpl. now rewrite E.
      * intros d Hd. cbn [mem_ascii] in Hd. apply orb_true_iff in Hd.
        destruct Hd as [Hd | Hd]; [| now apply Hpre].
        apply Ascii.eqb_eq in Hd. now subst.
      * exact Hk.
Qed.

Lemma re_run_star_elim (cl : cclass) (s : string) (b : bool)
  (k : bool -> string -> bool) :
  re_run (RStar cl) b s k = true ->
  exists pre t b',
    s = (pre ++ t)%string /\
    (forall c, mem_ascii c pre = true -> cclass_match cl c = true) /\
    k b' t = true.
Proof.
  cbn [re_run]. intros H. apply orb_true_iff in H. destruct H as [H | H].
  - exists EmptyString, s, b. repeat split; [discriminate | exact H].
  - destruct s as [| c s]; [discriminate |].
    apply andb_true_iff in H. destruct H as [Hc Hs].
    destruct (star_run_elim cl s _ Hs) as [pre [t [E [Hpre Hk]]]].
    exists (String c pre), t, false. repeat split.
    + simpl. now rewrite E.
    + intros d Hd. cbn [mem_ascii] in Hd. apply orb_true_iff in Hd.
      destruct Hd as [Hd | Hd]; [| now apply Hpre].
      apply Ascii.eqb_eq in Hd. now subst.
    + exact Hk.
Qed.

Lemma lit_run_some (l t t' : string) :
  lit_run l t = Some t' -> t = (l ++ t')%string.
Proof.
  revert t. induction l as [| c l IH]; intros t H.
  - simpl in H. now inversion H.
  - destruct t as [| d t]; simpl in H; [discriminate |].
    destruct (Ascii.eqb c d) eqn:E; [| discriminate].
    apply Ascii.eqb_eq in E. subst d. simpl. f_equal. now apply IH.
Qed.

Lemma any_no_newline (pre : string) :
  (forall c, mem_ascii c pre = true -> cclass_match CAny c = true) ->
  mem_ascii newline pre = false.
Proof.
  induction pre as [| c pre IH]; intros H; [reflexivity |].
  cbn [mem_ascii]. apply orb_false_iff. split.
  - assert (Hc : cclass_match CAny c = true)
      by (apply H; cbn [mem_ascii]; now rewrite Ascii.eqb_refl).
    simpl in Hc. apply negb_true_iff in Hc. now rewrite Ascii.eqb_sym.
  - apply IH. intros d Hd. apply H. cbn [mem_ascii]. rewrite Hd.
    apply orb_true_r.
Qed.

Lemma star_run_dotless (cl : cclass) (s : string) (k : string -> bool) :
  (forall t, mem_ascii dot t = false -> k t = false) ->
  mem_ascii dot s = false ->
  star_run cl s k = false.
Proof.
  intros Hk. induction s as [| c s IH]; intros Hs; cbn [star_run].
  - now rewrite (Hk _ Hs).
  - rewrite (Hk _ Hs). cbn [mem_ascii] in Hs.
    apply orb_false_iff in Hs. destruct Hs as [_ Hs].
    rewrite (IH Hs). now rewrite andb_false_r.
Qed.

Lemma re_run_star_unfold (cl : cclass) (b : bool) (s : string)
  (k : bool -> string -> bool) :
  re_run (RStar cl) b s k =
  k b s ||
  match s with
  | EmptyString => false
  | String c s' => cclass_match cl c && star_run cl s' (fun t => k false t)
  end.
Proof. reflexivity. Qed.

(** A pattern of the form [.*\.] and more needs a dot in the subject. *)
Lemma dot_rule_dotless (l : string) (r : regex) (s : string) :
  mem_ascii dot s = false ->
  re_match (RSeq (RStar CAny) (RSeq (RLit (String dot l)) r)) s = false.
Proof.
  intros Hs. unfold re_match. rewrite re_run_seq.
  assert (Hk : forall b t, mem_ascii dot t = false ->
             re_run (RSeq (RLit (String dot l)) r) b t (fun _ _ => true)
               = false).
  { intros b t Ht. rewrite re_run_seq. cbn [re_run lit_run].
    destruct t as [| c t]; [reflexivity |].
    cbn [mem_ascii] in Ht. apply orb_false_iff in Ht. destruct Ht as [Hc _].
    now rewrite Hc. }
  rewrite re_run_star_unfold. cbv beta. rewrite (Hk true s Hs). cbn [orb].
  destruct s as [| c s]; [reflexivity |].
  cbn [mem_ascii] in Hs. apply orb_false_iff in Hs. destruct Hs as [_ Hs].
  rewrite (star_run_dotless CAny s _ (fun t Ht => Hk false t Ht) Hs).
  apply andb_false_r.
Qed.

Lemma veto_internal_shape (s : string) :
  re_match veto_internal s = true ->
  exists pre,
    mem_ascii newline pre = false /\
    (s = (pre ++ "_I")%string \/
     s = (pre ++ "_I" ++ String newline "")%string).
Proof.
  unfold re_match, veto_internal, seqs. cbn [fold_right].
  rewrite re_run_seq. intros H.
  destruct (re_run_star_elim _ _ _ _ H) as [pre [t [b' [E [Hpre Hk]]]]].
  exists pre. split; [now apply any_no_newline |].
  rewrite re_run_seq in Hk. cbn [re_run] in Hk.
  destruct (lit_run "_I" t) as [t' |] eqn:Hl; [| discriminate].
  apply lit_run_some in Hl. subst t s.
  destruct t' as [| c [| d t']]; cbn [at_end andb] in Hk; try discriminate.
  - left. reflexivity.
  - right. destruct (Ascii.eqb c newline) eqn:Ec; [| discriminate].
    apply Ascii.eqb_eq in Ec. now subst c.
Qed.

Lemma veto_private_shape (s : string) :
  re_match veto_private s = true -> exists rest, s = String "_" rest.
Proof.
  unfold re_match, veto_private, seqs. cbn [fold_right re_run andb].
  destruct (lit_run "_" s) as [t |] eqn:Hl; [| discriminate].
  apply lit_run_some in Hl. intros _. exists t. exact Hl.
Qed.

(** X20.  Top-level keys escape six of the eight patterns.  A path without
    a dot is vetoed exactly when it starts with an underscore or ends,
    after a part without newline, in [_I] (a final newline allowed): a
    top-level key named [uptime], [temps] or [stringId] is not. *)
Theorem veto_top_level :
  forall s : string,
    mem_ascii dot s = false ->
    (veto s = true <->
     (exists rest, s = String "_" rest) \/
     (exists pre,
        mem_ascii newline pre = false /\
        (s = (pre ++ "_I")%string \/
         s = (pre ++ "_I" ++ String newline "")%string))).
Proof.
  intros s Hs. split.
  - unfold veto, VETO. cbn [existsb].
    assert (H2 : re_match veto_volatile s = false)
      by (apply dot_rule_dotless; exact Hs).
    assert (H3 : re_match veto_string_id s = false)
      by (apply dot_rule_dotless; exact Hs).
    assert (H4 : re_match veto_fan_ctrl s = false)
      by (apply dot_rule_dotless; exact Hs).
    assert (H5 : re_match veto_sfp_txrx s = false)
      by (apply dot_rule_dotless; exact Hs).
    assert (H6 : re_match veto_channel s = false)
      by (apply dot_rule_dotless; exact Hs).
    assert (H7 : re_match veto_sfp_temp s = false)
      by (apply dot_rule_dotless; exact Hs).
    rewrite H2, H3, H4, H5, H6, H7. cbn [orb]. rewrite orb_false_r.
    intros H. apply orb_true_iff in H. destruct H as [H | H].
    + right. now apply veto_internal_shape.
    + left. now apply veto_private_shape.
  - intros [[rest ->] | [pre [Hpre [-> | ->]]]].
    + apply (veto_private_subtree_aux rest).
    + apply (veto_of_rule veto_internal); [unfold VETO; simpl; tauto |].
      unfold re_match, veto_internal, seqs. cbn [fold_right].
      rewrite re_run_seq. apply re_run_star; [now apply no_newline_any |].
      intros b. reflexivity.
    + apply (veto_of_rule veto_internal); [unfold VETO; simpl; tauto |].
      unfold re_match, veto_internal, seqs. cbn [fold_right].
      rewrite re_run_seq. apply re_run_star; [now apply no_newline_any |].
      intros b. reflexivity.
Qed.

Lemma veto_top_level_witness :
  veto "uptime" = true <->
  (exists rest, "uptime"%string = String "_" rest) \/
  (exists pre,
     mem_ascii newline pre = false /\
     ("uptime"%string = (pre ++ "_I")%string \/
      "uptime"%string = (pre ++ "_I" ++ String newline "")%string)).
Proof.
  apply (veto_top_level "uptime"). reflexivity.
Defined.


(** ** dict_compare: no path twice *)

Lemma join_inj (l1 l2 : list string) :
  l1 <> [] -> l2 <> [] ->
  Forall (fun s => mem_ascii dot s = false) l1 ->
  Forall (fun s => mem_ascii dot s = false) l2 ->
  join "." l1 = join "." l2 -> l1 = l2.
Proof.
  intros N1 N2 D1 D2 E.
  rewrite <- (split_join l1 N1 D1), <- (split_join l2 N2 D2). now rewrite E.
Qed.

Lemma under_key (path : list string) (k k' p : string) :
  Forall (fun s => mem_ascii dot s = false) path ->
  under path k p -> under path k' p -> k = k'.
Proof.
  intros Hpath [q [Hq E]] [q' [Hq' E']].
  assert (H : path ++ k :: q = path ++ k' :: q').
  { apply join_inj.
    - destruct path; discriminate.
    - destruct path; discriminate.
    - apply Forall_app. now split.
    - apply Forall_app. now split.
    - congruence. }
  apply app_inv_head in H. now inversion H.
Qed.

Lemma under_child (path : list string) (k k2 p : string) :
  mem_ascii dot k = false ->
  under (path ++ [k]) k2 p -> under path k p.
Proof.
  intros Hk [q [Hq E]]. exists (k2 :: q). split.
  - now constructor.
  - rewrite E. now rewrite <- app_assoc.
Qed.

Lemma under_self (path : list string) (k : string) :
  mem_ascii dot k = false -> under path k (join "." (path ++ [k])).
Proof.
  intros Hk. exists []. split; [now repeat constructor | reflexivity].
Qed.

Lemma nodup_app_under (path : list string) (k : string)
  (first rest : list string) (keys : list string) :
  Forall (fun s => mem_ascii dot s = false) path ->
  NoDup first -> NoDup rest ->
  (forall p, In p first -> under path k p) ->
  (forall p, In p rest -> exists k', In k' keys /\ under path k' p) ->
  ~ In k keys ->
  NoDup (first ++ rest).
Proof.
  intros Hpath N1 N2 H1 H2 Hk.
  induction first as [| p first IH]; [exact N2 |].
  inversion N1 as [| ? ? Hnotin N1']; subst. cbn [app]. constructor.
  - intros Hin. apply in_app_or in Hin. destruct Hin as [Hin | Hin];
      [contradiction |].
    destruct (H2 p Hin) as [k' [Hk' Hu']].
    assert (k = k')
      by (apply (under_key path k k' p Hpath); [apply H1; now left | exact Hu']).
    subst k'. contradiction.
  - apply IH; [exact N1' |]. intros q Hq. apply H1. now right.
Qed.

Lemma key_paths_nodup (path : list string) (keys : list string) :
  Forall (fun s => mem_ascii dot s = false) path ->
  NoDup keys ->
  (forall k, In k keys -> mem_ascii dot k = false) ->
  NoDup (key_paths path keys).
Proof.
  intros Hpath Hnd Hdot. induction Hnd as [| k keys Hk Hnd IH]; cbn [key_paths map].
  - constructor.
  - constructor.
    + intros Hin. apply in_map_iff in Hin. destruct Hin as [k' [E Hk']].
      assert (k' = k).
      { apply (under_key path k' k (join "." (path ++ [k])) Hpath).
        - rewrite <- E. apply under_self. apply Hdot. now right.
        - apply under_self. apply Hdot. now left. }
      subst k'. contradiction.
    + apply IH. intros k' Hk'. apply Hdot. now right.
Qed.

Lemma items_loop_nodup {order : set_order} (db : list (string * json))
  (path : list string) (its : list (string * json)) :
  Forall (fun s => mem_ascii dot s = false) path ->
  NoDup (map fst its) ->
  (forall k, In k (map fst its) -> mem_ascii dot k = false) ->
  (forall k v, In (k, v) its ->
     forall w sub, dict_get k db = Some w ->
       dict_compare order v w (path ++ [k]) = Ok sub ->
       NoDup sub /\ forall p, In p sub -> exists k2, under (path ++ [k]) k2 p) ->
  forall result out,
    items_loop (dict_compare order) (JDict db) path its result = Ok out ->
    exists extra,
      out = result ++ extra /\ NoDup extra /\
      forall p, In p extra -> exists k, In k (map fst its) /\ under path k p.
Proof.
  intros Hpath. induction its as [| [k v] rest IH];
    intros Hnd Hdot Hrec result out H.
  - simpl in H. inversion H; subst. exists []. rewrite app_nil_r.
    repeat split; [constructor | intros p []].
  - cbn [map fst] in Hnd. inversion Hnd as [| ? ? Hk Hnd']; subst.
    assert (Hkdot : mem_ascii dot k = false) by (apply Hdot; now left).
    destruct (items_loop_step _ _ _ _ _ _ _ _ H) as [extra [Hrest Hcase]].
    destruct (IH Hnd'
                (fun k0 Hin => Hdot k0 (or_intror Hin))
                (fun k0 v0 Hin => Hrec k0 v0 (or_intror Hin))
                _ _ Hrest) as [more [Eout [Nmore Hmore]]].
    assert (Hextra : NoDup extra /\ forall p, In p extra -> under path k p).
    { destruct Hcase as [[_ ->] | [[dv [w [-> [Hg Hc]]]] | [[l [_ [_ ->]]]
                        | [x [_ [_ [-> | [-> _]]]]]]]].
      - split; [repeat constructor; intros [] |].
        intros p [<- | []]. now apply under_self.
      - destruct (Hrec k (JDict dv) (or_introl eq_refl) w extra Hg Hc)
          as [Nsub Hsub].
        split; [exact Nsub |]. intros p Hp.
        destruct (Hsub p Hp) as [k2 Hu]. exact (under_child path k k2 p Hkdot Hu).
      - split; [constructor | intros p []].
      - split; [constructor | intros p []].
      - split; [repeat constructor; intros [] |].
        intros p [<- | []]. now apply under_self. }
    destruct Hextra as [Nextra Hunder].
    exists (extra ++ more). split; [| split].
    + rewrite Eout. now rewrite app_assoc.
    + exact (nodup_app_under path k extra more (map fst rest)
               Hpath Nextra Nmore Hunder Hmore Hk).
    + intros p Hp. apply in_app_or in Hp. destruct Hp as [Hp | Hp].
      * exists k. split; [now left | now apply Hunder].
      * destruct (Hmore p Hp) as [k' [Hk' Hu]].
        exists k'. split; [now right | exact Hu].
Qed.

Lemma dict_compare_nodup {order : set_order} (a : json) :
  forall (b : json) (path : list string) (res : list string),
    keys_ok a -> keys_ok b ->
    Forall (fun s => mem_ascii dot s = false) path ->
    dict_compare order a b path = Ok res ->
    NoDup res /\ forall p, In p res -> exists k, under path k p.
Proof.
  induction a as [x | l | items IH] using json_dict_ind;
    intros b path res Ha Hb Hpath H; try discriminate.
  cbn [dict_compare] in H.
  destruct (items_loop (dict_compare order) b path items [])
    as [r1 | e] eqn:Hloop;
    cbn [rbind] in H; [| discriminate].
  destruct b as [y | m | db]; cbn [py_keys rbind] in H; try discriminate.
  inversion H; subst res. clear H.
  inversion Ha as [| | d Hnd Hdot Hvals]; subst d.
  inversion Hb as [| | d Hndb Hdotb Hvalsb]; subst d.
  destruct (items_loop_nodup (order := order) db path items Hpath Hnd Hdot)
    with
    (result := @nil string) (out := r1) as [extra [E [Nextra Hunder]]];
    [| exact Hloop |].
  { intros k v Hin w sub Hg Hc. rewrite Forall_forall in IH.
    apply (IH (k, v) Hin w (path ++ [k]) sub); auto.
    - exact (Hvals k v Hin).
    - exact (Hvalsb k w (dict_get_some_in k db w Hg)).
    - apply Forall_app. split; [exact Hpath |]. repeat constructor.
      apply Hdot. apply in_map_iff. now exists (k, v). }
  cbn [app] in E. subst r1.
  assert (Hadded : forall k,
            In k (keys_diff order (map fst db) (map fst items)) ->
            In k (map fst db) /\ ~ In k (map fst items))
    by (intros k; apply keys_diff_in).
  split.
  - apply NoDup_app.
    + exact Nextra.
    + apply key_paths_nodup; [exact Hpath | |].
      * apply keys_diff_nodup.
      * intros k Hk. apply Hdotb. now apply Hadded.
    + intros p Hp Hq. destruct (Hunder p Hp) as [k [Hk Hu]].
      apply in_map_iff in Hq. destruct Hq as [k' [<- Hk']].
      assert (k = k').
      { apply (under_key path k k' _ Hpath Hu). apply under_self.
        apply Hdotb. now apply Hadded. }
      subst k'. now apply (proj2 (Hadded k Hk')).
  - intros p Hp. apply in_app_or in Hp. destruct Hp as [Hp | Hp].
    + destruct (Hunder p Hp) as [k [_ Hu]]. now exists k.
    + apply in_map_iff in Hp. destruct Hp as [k [<- Hk]].
      exists k. apply under_self. apply Hdotb. now apply Hadded.
Qed.

(** X21.  No path twice.  When both snapshots bind each key once, with
    keys that hold no dot, every path of the result of [dict_compare]
    occurs once in it: a change gives one line. *)
Theorem dict_compare_reports_once (order : set_order) :
  forall (a b : json) (res : list string),
    keys_ok a -> keys_ok b ->
    dict_compare order a b [] = Ok res ->
    NoDup res.
Proof.
  intros a b res Ha Hb H.
  exact (proj1 (dict_compare_nodup a b [] res Ha Hb (Forall_nil _) H)).
Qed.

Lemma dict_compare_reports_once_witness :
  NoDup ["name"; "sys.load"]%string.
Proof.
  apply (dict_compare_reports_once insertion_order
           (snd sample_old) (snd sample_new) ["name"; "sys.load"]%string).
  - apply keys_ok_dict.
    + repeat constructor; simpl; intuition discriminate.
    + intros k [<- | [<- | []]]; reflexivity.
    + intros k v [E | [E | []]]; inversion E; subst.
      * constructor.
      * apply keys_ok_dict.
        -- repeat constructor; simpl; intuition.
        -- intros k' [<- | []]; reflexivity.
        -- intros k' v' [E' | []]. inversion E'. constructor.
  - apply keys_ok_dict.
    + repeat constructor; simpl; intuition discriminate.
    + intros k [<- | [<- | []]]; reflexivity.
    + intros k v [E | [E | []]]; inversion E; subst.
      * constructor.
      * apply keys_ok_dict.
        -- repeat constructor; simpl; intuition.
        -- intros k' [<- | []]; reflexivity.
        -- intros k' v' [E' | []]. inversion E'. constructor.
  - reflexivity.
Defined.

(** X22.  Nothing changed, nothing logged, unless a reading is [NaN].
    When the two latest samples hold the same snapshot, a dict without
    lists and without [NaN] that binds each key once, [compare] returns
    after its one debug record: no change line, no warning.  A [NaN]
    differs from itself at line 136: the same snapshot with a [NaN]
    reading, sampled twice, gives a change line at every cycle. *)
Theorem compare_unchanged (order : set_order) :
  (forall (self : Processor.t) (older : list (Q * json)) (ta tb : Q)
          (d : list (string * json)) (w : world),
     Processor.data self = older ++ [(ta, JDict d); (tb, JDict d)] ->
     plain (JDict d) ->
     Processor.compare order self w =
       (Ok tt,
        add_log w [(LOG, DEBUG, Comparing (Processor.id self) ta tb)])) /\
  (forall w : world,
     Processor.compare order processor_nan w =
       (Ok tt,
        add_log w
          [(LOG, DEBUG, Comparing "Megapixel h" 0 1);
           (OUTPUT, INFO,
            Change "Megapixel h" "load" (JScalar SNaN) (JScalar SNaN))])).
Proof.
  split.
  - intros self older ta tb d w Hdata Hplain.
    unfold Processor.compare. rewrite Hdata, slice_last_two.
    cbn [List.length Nat.eqb negb]. unfold mbind, emit, lift.
    rewrite (dict_compare_same_plain (JDict d) Hplain d eq_refl []).
    reflexivity.
  - intros w.
    assert (H : dict_compare order nan_reading nan_reading []
                = Ok ["load"%string]).
    { unfold nan_reading. rewrite dict_compare_dict. cbn [map fst].
      rewrite keys_diff_same. vm_compute. reflexivity. }
    unfold Processor.compare, processor_nan. cbn [Processor.data Processor.id].
    change (slice_from (-2) [(0%Q, nan_reading); (1%Q, nan_reading)])
      with [(0%Q, nan_reading); (1%Q, nan_reading)].
    cbn [List.length Nat.eqb negb]. unfold mbind, emit, lift.
    rewrite H. cbn. unfold add_log. cbn [issued ticks logged].
    now rewrite <- app_assoc.
Qed.

Lemma compare_unchanged_witness :
  Processor.compare insertion_order
    (Processor.set_data processor_xy [sample_old; (1%Q, snd sample_old)])
    world0 =
    (Ok tt, add_log world0 [(LOG, DEBUG, Comparing "Megapixel h" 0 1)]).
Proof.
  apply (proj1 (compare_unchanged insertion_order)
           (Processor.set_data processor_xy [sample_old; (1%Q, snd sample_old)])
           [] 0%Q 1%Q
           [("name", JStr "X"); ("sys", JDict [("load", JInt 1)])]%string
           world0).
  - reflexivity.
  - apply plain_dict.
    + repeat constructor; simpl; intuition discriminate.
    + intros k v [E | [E | []]]; inversion E; subst.
      * constructor. discriminate.
      * apply plain_dict.
        -- repeat constructor; simpl; intuition.
        -- intros k' v' [E' | []]. inversion E'. constructor. discriminate.
Defined.

(** ** dict_compare: what the order of the run changes *)


